(** * nc_2048: the game logic of [logic.c], embedded and verified

    The C program keeps all of its data in one global [struct game g]
    and every function of [logic.c] reads and writes that global.  The
    embedding below threads the global explicitly through a small
    state-and-error monad: a computation is a function from the current
    value of [g] to either nothing (the C code indexed an array outside
    its declared bounds, which is undefined behaviour) or a result
    together with the new value of [g]. *)

From Stdlib Require Import ZArith List Bool Lia QArith Qround Btauto.
From Stdlib Require Strings.Byte.
From stdpp Require Import base list.
Import ListNotations.

Local Open Scope Z_scope.

(** ** Machine integers *)

(** An [int] is a 32-bit two's complement integer.  Values are kept in
    [Z]; the arithmetic the program performs on tile values and on the
    score is followed by [wrap], the reduction into [-2^31, 2^31). *)
Definition wrap (z : Z) : Z := (z + 2147483648) mod 4294967296 - 2147483648.

Definition int_range (z : Z) : Prop := -2147483648 <= z < 2147483648.

Definition int_add (a b : Z) : Z := wrap (a + b).
Definition int_mul (a b : Z) : Z := wrap (a * b).

(** ** Constants of [nc_2048.h] *)

Definition DIM : Z := 4.
Definition UNDO_CAPACITY : Z := 4.

(** ** The game structure *)

Abbreviation board := (list (list Z)).

(** [struct stack]: the circular undo stack. *)
Record stack := mkStack {
  undo_tiles : list board;   (* int tiles[UNDO_CAPACITY][DIM][DIM] *)
  undo_score : list Z;       (* int score[UNDO_CAPACITY]           *)
  undo_top   : Z;            (* int top                            *)
  undo_size  : Z             (* int size                           *)
}.

(** [struct game]: the single global [g]. *)
Record game := mkGame {
  x : Z;
  y : Z;
  tiles : board;             (* int tiles[DIM][DIM] *)
  score : Z;
  undo  : stack
}.

Definition set_tiles (b : board) (g : game) : game :=
  mkGame (x g) (y g) b (score g) (undo g).
Definition set_score (s : Z) (g : game) : game :=
  mkGame (x g) (y g) (tiles g) s (undo g).
Definition set_undo (u : stack) (g : game) : game :=
  mkGame (x g) (y g) (tiles g) (score g) u.

(** ** The monad of computations over the global [g] *)

Definition M (A : Type) : Type := game -> option (A * game).

Definition ret {A} (a : A) : M A := fun g => Some (a, g).

Definition bind {A B} (m : M A) (k : A -> M B) : M B :=
  fun g => match m g with
           | Some (a, g') => k a g'
           | None => None
           end.

Declare Scope c_scope.
Delimit Scope c_scope with c.
Notation "v <- m ;; k" := (bind m (fun v => k))
  (at level 100, m at next level, right associativity) : c_scope.
Notation "m ;; k" := (bind m (fun _ => k))
  (at level 100, right associativity) : c_scope.
Local Open Scope c_scope.

(** A [for] loop whose index runs over the list [l], threading the
    local variables [a] that the body updates. *)
Fixpoint for_ {A} (l : list Z) (body : Z -> A -> M A) (a : A) : M A :=
  match l with
  | [] => ret a
  | i :: l' => a' <- body i a ;; for_ l' body a'
  end.

(** A [for] loop whose body may execute [return]: the body yields
    [inl a] to go on with locals [a], or [inr r] to leave the function
    with result [r]. *)
Fixpoint for_return {A R} (l : list Z) (body : Z -> A -> M (A + R)) (a : A)
  : M (A + R) :=
  match l with
  | [] => ret (inl a)
  | i :: l' =>
      r <- body i a ;;
      match r with
      | inl a' => for_return l' body a'
      | inr v => ret (inr v)
      end
  end.

(** [for (k = 0; k < n; k++)] and [for (k = n - 1; k >= 0; k--)]. *)
Definition upto (n : Z) : list Z := map Z.of_nat (seq 0 (Z.to_nat n)).
Definition downfrom (n : Z) : list Z := rev (upto n).

(** ** Array accesses *)

Definition in_bounds (n k : Z) : bool := (0 <=? k) && (k <? n).

(** [b[i][j]] for [int b[DIM][DIM]]; [None] outside the bounds. *)
Definition cell (b : board) (i j : Z) : option Z :=
  if in_bounds DIM i && in_bounds DIM j then
    match b !! Z.to_nat i with
    | Some r => r !! Z.to_nat j
    | None => None
    end
  else None.

(** [b[i][j] = v]. *)
Definition set_cell (b : board) (i j v : Z) : option board :=
  if in_bounds DIM i && in_bounds DIM j then
    match b !! Z.to_nat i with
    | Some r =>
        if (Z.to_nat j <? length r)%nat
        then Some (<[Z.to_nat i := <[Z.to_nat j := v]> r]> b)
        else None
    | None => None
    end
  else None.

(** Reading and writing [g.tiles[i][j]], and [g.score += v]. *)
Definition rd (i j : Z) : M Z :=
  fun g => match cell (tiles g) i j with
           | Some v => Some (v, g)
           | None => None
           end.

Definition wr (i j v : Z) : M unit :=
  fun g => match set_cell (tiles g) i j v with
           | Some b => Some (tt, set_tiles b g)
           | None => None
           end.

Definition add_score (v : Z) : M unit :=
  fun g => Some (tt, set_score (int_add (score g) v) g).

(** ** The four pushes *)

(** The locals of one line scan: [zeros], [unmerged] and the function's
    [new_tile_needed].  [zeros] only counts up from zero during the scan
    and down to zero in the closing [while], so it is a [nat]. *)
Definition locals : Type := nat * Z * bool.

(** *** [left] *)

(** The body of the inner loop of [left()], at row [i] and column [j]. *)
Definition left_cell (i j : Z) (st : locals) : M locals :=
  let '(zeros, unmerged, new_tile_needed) := st in
  t <- rd i j ;;
  if t =? 0 then
    ret (S zeros, unmerged, new_tile_needed)
  else if t =? unmerged then
    wr i (j - Z.of_nat zeros - 1) (int_mul unmerged 2) ;;
    add_score (int_mul unmerged 2) ;;
    ret (S zeros, 0, true)
  else if negb (unmerged =? 0) then
    wr i (j - Z.of_nat zeros - 1) unmerged ;;
    t' <- rd i j ;;
    ret (zeros, t', new_tile_needed || negb (Nat.eqb zeros 0))
  else
    t' <- rd i j ;;
    ret (zeros, t', new_tile_needed).

(** [while (zeros) { g.tiles[i][DIM-zeros] = 0; zeros--; }] *)
Fixpoint left_fill (i : Z) (zeros : nat) : M unit :=
  match zeros with
  | O => ret tt
  | S z' => wr i (DIM - Z.of_nat zeros) 0 ;; left_fill i z'
  end.

(** The body of the outer loop of [left()], for row [i]. *)
Definition left_line (i : Z) (new_tile_needed : bool) : M bool :=
  st <- for_ (upto DIM) (left_cell i) (O, 0, new_tile_needed) ;;
  let '(zeros, unmerged, new_tile_needed) := st in
  new_tile_needed <-
     (if negb (unmerged =? 0) then
        t <- rd i (DIM - Z.of_nat zeros - 1) ;;
        if negb (t =? unmerged) then
          wr i (DIM - Z.of_nat zeros - 1) unmerged ;; ret true
        else ret new_tile_needed
      else ret new_tile_needed) ;;
  left_fill i zeros ;;
  ret new_tile_needed.

Definition left : M bool := for_ (upto DIM) left_line false.

(** *** [right] *)

Definition right_cell (i j : Z) (st : locals) : M locals :=
  let '(zeros, unmerged, new_tile_needed) := st in
  t <- rd i j ;;
  if t =? 0 then
    ret (S zeros, unmerged, new_tile_needed)
  else if t =? unmerged then
    wr i (j + Z.of_nat zeros + 1) (int_mul unmerged 2) ;;
    add_score (int_mul unmerged 2) ;;
    ret (S zeros, 0, true)
  else if negb (unmerged =? 0) then
    wr i (j + Z.of_nat zeros + 1) unmerged ;;
    t' <- rd i j ;;
    ret (zeros, t', new_tile_needed || negb (Nat.eqb zeros 0))
  else
    t' <- rd i j ;;
    ret (zeros, t', new_tile_needed).

(** [while (zeros) { g.tiles[i][zeros-1] = 0; zeros--; }] *)
Fixpoint right_fill (i : Z) (zeros : nat) : M unit :=
  match zeros with
  | O => ret tt
  | S z' => wr i (Z.of_nat zeros - 1) 0 ;; right_fill i z'
  end.

Definition right_line (i : Z) (new_tile_needed : bool) : M bool :=
  st <- for_ (downfrom DIM) (right_cell i) (O, 0, new_tile_needed) ;;
  let '(zeros, unmerged, new_tile_needed) := st in
  new_tile_needed <-
     (if negb (unmerged =? 0) then
        t <- rd i (Z.of_nat zeros) ;;
        if negb (t =? unmerged) then
          wr i (Z.of_nat zeros) unmerged ;; ret true
        else ret new_tile_needed
      else ret new_tile_needed) ;;
  right_fill i zeros ;;
  ret new_tile_needed.

Definition right : M bool := for_ (upto DIM) right_line false.

(** *** [up] *)

Definition up_cell (j i : Z) (st : locals) : M locals :=
  let '(zeros, unmerged, new_tile_needed) := st in
  t <- rd i j ;;
  if t =? 0 then
    ret (S zeros, unmerged, new_tile_needed)
  else if t =? unmerged then
    wr (i - Z.of_nat zeros - 1) j (int_mul unmerged 2) ;;
    add_score (int_mul unmerged 2) ;;
    ret (S zeros, 0, true)
  else if negb (unmerged =? 0) then
    wr (i - Z.of_nat zeros - 1) j unmerged ;;
    t' <- rd i j ;;
    ret (zeros, t', new_tile_needed || negb (Nat.eqb zeros 0))
  else
    t' <- rd i j ;;
    ret (zeros, t', new_tile_needed).

(** [while (zeros) { g.tiles[DIM-zeros][j] = 0; zeros--; }] *)
Fixpoint up_fill (j : Z) (zeros : nat) : M unit :=
  match zeros with
  | O => ret tt
  | S z' => wr (DIM - Z.of_nat zeros) j 0 ;; up_fill j z'
  end.

Definition up_line (j : Z) (new_tile_needed : bool) : M bool :=
  st <- for_ (upto DIM) (up_cell j) (O, 0, new_tile_needed) ;;
  let '(zeros, unmerged, new_tile_needed) := st in
  new_tile_needed <-
     (if negb (unmerged =? 0) then
        t <- rd (DIM - Z.of_nat zeros - 1) j ;;
        if negb (t =? unmerged) then
          wr (DIM - Z.of_nat zeros - 1) j unmerged ;; ret true
        else ret new_tile_needed
      else ret new_tile_needed) ;;
  up_fill j zeros ;;
  ret new_tile_needed.

Definition up : M bool := for_ (upto DIM) up_line false.

(** *** [down] *)

Definition down_cell (j i : Z) (st : locals) : M locals :=
  let '(zeros, unmerged, new_tile_needed) := st in
  t <- rd i j ;;
  if t =? 0 then
    ret (S zeros, unmerged, new_tile_needed)
  else if t =? unmerged then
    wr (i + Z.of_nat zeros + 1) j (int_mul unmerged 2) ;;
    add_score (int_mul unmerged 2) ;;
    ret (S zeros, 0, true)
  else if negb (unmerged =? 0) then
    wr (i + Z.of_nat zeros + 1) j unmerged ;;
    t' <- rd i j ;;
    ret (zeros, t', new_tile_needed || negb (Nat.eqb zeros 0))
  else
    t' <- rd i j ;;
    ret (zeros, t', new_tile_needed).

(** [while (zeros) { g.tiles[zeros-1][j] = 0; zeros--; }] *)
Fixpoint down_fill (j : Z) (zeros : nat) : M unit :=
  match zeros with
  | O => ret tt
  | S z' => wr (Z.of_nat zeros - 1) j 0 ;; down_fill j z'
  end.

Definition down_line (j : Z) (new_tile_needed : bool) : M bool :=
  st <- for_ (downfrom DIM) (down_cell j) (O, 0, new_tile_needed) ;;
  let '(zeros, unmerged, new_tile_needed) := st in
  new_tile_needed <-
     (if negb (unmerged =? 0) then
        t <- rd (Z.of_nat zeros) j ;;
        if negb (t =? unmerged) then
          wr (Z.of_nat zeros) j unmerged ;; ret true
        else ret new_tile_needed
      else ret new_tile_needed) ;;
  down_fill j zeros ;;
  ret new_tile_needed.

Definition down : M bool := for_ (upto DIM) down_line false.


(** ** [new_tile] *)

(** [drand48()] returns the 48-bit state of its generator divided by
    2^48, a rational in [0, 1) that a [double] holds exactly; the two
    calls are modelled by the two rationals they return.  With at most
    sixteen empty cells the product [drand48() * zeros_count] is exact
    too, and the conversion to [int] truncates it towards zero. *)
Definition trunc (q : Q) : Z := Z.quot (Qnum q) (Zpos (Qden q)).

(** The [double] nearest to [0.9]. *)
Definition double_0_9 : Q := 8106479329266893 # 9007199254740992.

(** The body of the counting loops. *)
Definition count_cell (i j : Z) (zeros_count : Z) : M Z :=
  t <- rd i j ;;
  if t =? 0 then ret (zeros_count + 1) else ret zeros_count.

(** The body of the placing loops; [inr tt] is the [return]. *)
Definition place_cell (new_placement new_tile : Z) (i j : Z) (zeros_count : Z)
  : M (Z + unit) :=
  t <- rd i j ;;
  if t =? 0 then
    if zeros_count =? new_placement then
      wr i j new_tile ;; ret (inr tt)
    else ret (inl (zeros_count + 1))
  else ret (inl zeros_count).

Definition new_tile (random_tiles : bool) (draw1 draw2 : Q) : M unit :=
  zeros_count <-
    for_ (upto DIM) (fun i => for_ (upto DIM) (count_cell i)) 0 ;;
  let new_placement :=
    if random_tiles then trunc (draw1 * inject_Z zeros_count) else 0 in
  let new_tile :=
    if random_tiles then (if Qlt_le_dec draw2 double_0_9 then 2 else 4) else 2 in
  for_return (upto DIM)
    (fun i => for_return (upto DIM) (place_cell new_placement new_tile i)) 0 ;;
  ret tt.

(** ** [move_available] *)

(** The body of the loops; [inr true] is [return true].  The two
    neighbour tests are guarded by [&&], which reads the neighbour only
    when the index test passed. *)
Definition move_cell (i j : Z) (_ : unit) : M (unit + bool) :=
  t <- rd i j ;;
  if t =? 0 then ret (inr true)
  else
    below <- (if i <? DIM - 1
              then (a <- rd i j ;; b <- rd (i + 1) j ;; ret (a =? b))
              else ret false) ;;
    if below then ret (inr true)
    else
      beside <- (if j <? DIM - 1
                 then (a <- rd i j ;; b <- rd i (j + 1) ;; ret (a =? b))
                 else ret false) ;;
      if beside then ret (inr true) else ret (inl tt).

Definition move_available : M bool :=
  r <- for_return (upto DIM)
         (fun i => for_return (upto DIM) (move_cell i)) tt ;;
  match r with
  | inr b => ret b
  | inl _ => ret false
  end.

(** ** The undo stack *)

(** An index into one of the arrays of [UNDO_CAPACITY] entries. *)
Definition slot {A} (l : list A) (k : Z) : option A :=
  if in_bounds UNDO_CAPACITY k then l !! Z.to_nat k else None.

Definition set_slot {A} (l : list A) (k : Z) (a : A) : option (list A) :=
  if in_bounds UNDO_CAPACITY k && (Z.to_nat k <? length l)%nat
  then Some (<[Z.to_nat k := a]> l) else None.

(** [%] on [int] truncates towards zero: [Z.rem]. *)
Definition push_undo : M unit := fun g =>
  let u := undo g in
  let top := Z.rem (int_add (undo_top u) 1) UNDO_CAPACITY in
  let size := if undo_size u <? UNDO_CAPACITY
              then int_add (undo_size u) 1 else undo_size u in
  match set_slot (undo_tiles u) top (tiles g),
        set_slot (undo_score u) top (score g) with
  | Some ts, Some ss => Some (tt, set_undo (mkStack ts ss top size) g)
  | _, _ => None
  end.

Definition pop_undo : M bool := fun g =>
  let u := undo g in
  if undo_size u <=? 1 then Some (false, g)
  else
    let index := if negb (undo_top u =? 0)
                 then int_add (undo_top u) (-1) else UNDO_CAPACITY - 1 in
    match slot (undo_tiles u) index, slot (undo_score u) index with
    | Some b, Some s =>
        let top :=
          Z.rem (int_add (int_add (undo_top u) UNDO_CAPACITY) (-1))
                UNDO_CAPACITY in
        let size := int_add (undo_size u) (-1) in
        Some (true,
              mkGame (x g) (y g) b s
                     (mkStack (undo_tiles u) (undo_score u) top size))
    | _, _ => None
    end.

(** ** Saving and loading *)

(** [fwrite(&g, sizeof g, 1, fp)] writes the object representation of
    the whole of [g].  [struct game] has only [int] members, so it is
    laid out without padding as 89 consecutive [int]s, here of four
    bytes each, least significant byte first:
    [x], [y], [tiles] (16), [score], [undo.tiles] (64), [undo.score] (4),
    [undo.top], [undo.size]. *)

Definition byte_of_Z (z : Z) : Byte.byte :=
  match Byte.of_N (Z.to_N (z mod 256)) with
  | Some b => b
  | None => Byte.x00
  end.

Definition Z_of_byte (b : Byte.byte) : Z := Z.of_N (Byte.to_N b).

Definition int_bytes (v : Z) : list Byte.byte :=
  let u := v mod 4294967296 in
  [byte_of_Z u; byte_of_Z (u / 256); byte_of_Z (u / 65536);
   byte_of_Z (u / 16777216)].

Definition bytes_int (bs : list Byte.byte) : Z :=
  match bs with
  | [b0; b1; b2; b3] =>
      wrap (Z_of_byte b0 + 256 * Z_of_byte b1 + 65536 * Z_of_byte b2
            + 16777216 * Z_of_byte b3)
  | _ => 0
  end.

(** The [int]s of [g] in memory order. *)
Definition game_ints (g : game) : list Z :=
  [x g; y g] ++ concat (tiles g) ++ [score g]
  ++ concat (concat (undo_tiles (undo g))) ++ undo_score (undo g)
  ++ [undo_top (undo g); undo_size (undo g)].

Definition game_bytes (g : game) : list Byte.byte :=
  concat (map int_bytes (game_ints g)).

(** [sizeof g], in bytes. *)
Definition sizeof_game : nat := 356.

(** Cutting a list into consecutive pieces of [n] elements. *)
Fixpoint chunks {A} (n : nat) (k : nat) (l : list A) : list (list A) :=
  match k with
  | O => []
  | S k' => take n l :: chunks n k' (drop n l)
  end.

(** The [struct game] whose object representation is [bs]. *)
Definition game_of_bytes (bs : list Byte.byte) : game :=
  let w := map bytes_int (chunks 4 89 bs) in
  let rows := chunks 4 20 (drop 2 (take 18 w) ++ drop 19 (take 83 w)) in
  mkGame (default 0 (w !! 0%nat)) (default 0 (w !! 1%nat))
         (take 4 rows)
         (default 0 (w !! 18%nat))
         (mkStack (chunks 4 4 (drop 4 rows))
                  (drop 83 (take 87 w))
                  (default 0 (w !! 87%nat)) (default 0 (w !! 88%nat))).

(** What the environment decides about the save file [SAVEFILE]:
    its contents when it exists, and whether opening it and writing to
    it go through. *)
Record disk := mkDisk {
  savefile : option (list Byte.byte);
  fopen_ok : bool;
  fwrite_ok : bool
}.

(** [save_game] does not touch [g]; it returns its result and the new
    contents of the save file.  Opening with ["wb"] creates or empties
    the file; what a failed [fwrite] leaves behind is some part of the
    record, here none of it. *)
Definition save_game (d : disk) (g : game) : bool * disk :=
  if fopen_ok d then
    if fwrite_ok d then
      (true, mkDisk (Some (game_bytes g)) (fopen_ok d) (fwrite_ok d))
    else (false, mkDisk (Some []) (fopen_ok d) (fwrite_ok d))
  else (false, d).

(** [fread(&temp, sizeof temp, 1, fp)] yields one item exactly when the
    file holds at least [sizeof temp] bytes; the first [sizeof temp] of
    them fill [temp]. *)
Definition load_game (d : disk) : M bool := fun g =>
  if fopen_ok d then
    match savefile d with
    | None => Some (false, g)
    | Some bs =>
        if (sizeof_game <=? length bs)%nat
        then Some (true, game_of_bytes (take sizeof_game bs))
        else Some (false, g)
    end
  else Some (false, g).

(** ** Notions used by the statements *)

(** A board of the declared shape: [DIM] rows of [DIM] cells. *)
Definition wf_board (b : board) : bool :=
  Nat.eqb (length b) (Z.to_nat DIM)
  && forallb (fun r : list Z => Nat.eqb (length r) (Z.to_nat DIM)) b.

(** The board seen in a vertical mirror, and the board transposed. *)
Definition mirror (b : board) : board := map (@rev Z) b.

Definition column (b : board) (j : nat) : list Z :=
  map (fun r : list Z => default 0 (r !! j)) b.

Definition transpose (b : board) : board :=
  map (column b) (seq 0 (Z.to_nat DIM)).

Definition on_tiles (f : board -> board) (g : game) : game :=
  set_tiles (f (tiles g)) g.

(** Running [m] on the board seen through [f], and looking at the
    outcome through [f] again ([mirror] and [transpose] undo
    themselves). *)
Definition conjugate {A} (f : board -> board) (m : M A) : M A :=
  fun g => match m (on_tiles f g) with
           | Some (a, g') => Some (a, on_tiles f g')
           | None => None
           end.

(** [m2], run on the image under [phi] of a state that satisfies [I],
    does what [m1] does on the state itself. *)
Definition sim {A} (phi : game -> game) (I : game -> Prop) (m1 m2 : M A)
  : Prop :=
  forall g, I g ->
    match m1 g with
    | Some (a, g') => I g' /\ m2 (phi g) = Some (a, phi g')
    | None => m2 (phi g) = None
    end.

(** *** One row on its own

    What [left()] does to a row is read off the code itself: the body
    of its outer loop is run on a game whose board is that single row. *)
Definition one_row (r : list Z) (s : Z) : game :=
  mkGame 0 0 [r] s (mkStack [] [] 0 0).

Definition the_row (g : game) : list Z := default [] (tiles g !! 0%nat).

Definition row_left (r : list Z) (s : Z) (f : bool)
  : option (bool * list Z * Z) :=
  match left_line 0 f (one_row r s) with
  | Some (f', g') => Some (f', the_row g', score g')
  | None => None
  end.

(** The row after the push, the score after it, and whether the row
    moved. *)
Definition push_row (r : list Z) : list Z :=
  match row_left r 0 false with Some (_, r', _) => r' | None => r end.
Definition row_score (r : list Z) (s : Z) : Z :=
  match row_left r s false with Some (_, _, s') => s' | None => s end.
Definition row_moved (r : list Z) : bool :=
  match row_left r 0 false with Some (f, _, _) => f | None => false end.

(** A row is placed in row [i] of a game, with its score. *)
Definition embed (i : Z) (g0 : game) (g1 : game) : game :=
  mkGame (x g0) (y g0) (<[Z.to_nat i := the_row g1]> (tiles g0))
         (score g1) (undo g0).

Definition is_row (g : game) : Prop :=
  exists r, tiles g = [r] /\ length r = Z.to_nat DIM.

(** *** The four pushes as one operation *)

Inductive direction := Left | Right | Up | Down.

Definition push (d : direction) : M bool :=
  match d with
  | Left => left
  | Right => right
  | Up => up
  | Down => down
  end.

(** The board as the push [d] sees it: its lines, each listed from the
    edge the tiles are pushed to; and the way back. *)
Definition view (d : direction) (b : board) : board :=
  match d with
  | Left => b
  | Right => mirror b
  | Up => transpose b
  | Down => mirror (transpose b)
  end.

Definition unview (d : direction) (b : board) : board :=
  match d with
  | Left => b
  | Right => mirror b
  | Up => transpose b
  | Down => transpose (mirror b)
  end.

(** Two equal non-zero tiles next to each other in a line. *)
Fixpoint adjacent_equal (l : list Z) : bool :=
  match l with
  | [] => false
  | a :: l' =>
      match l' with
      | [] => false
      | b :: _ => (negb (a =? 0) && (b =? a)) || adjacent_equal l'
      end
  end.

(** A line whose tiles are all at its head. *)
Fixpoint compact (l : list Z) : bool :=
  match l with
  | [] => true
  | a :: l' => if a =? 0 then forallb (fun t => t =? 0) l' else compact l'
  end.

(** A tile value whose double is an [int]. *)
Definition doubles (v : Z) : bool :=
  (-1073741824 <=? v) && (v <? 1073741824).

Definition wf_game (g : game) : Prop := wf_board (tiles g) = true.

(** The whole board pushed towards the head of its rows: the rows
    after the push, whether any moved, and the score after them. *)
Definition board_moved (b : board) : bool := existsb row_moved b.

Definition board_score (b : board) (s : Z) : Z :=
  fold_left (fun s r => row_score r s) b s.

(** *** Scans over the cells of the board *)

(** The cells in the order the nested loops of [new_tile] and
    [move_available] visit them: row by row, each row left to right. *)
Definition all_cells : list (Z * Z) :=
  flat_map (fun i => map (fun j => (i, j)) (upto DIM)) (upto DIM).

Fixpoint scan {A} (cells : list (Z * Z)) (body : Z -> Z -> A -> M A) (a : A)
  : M A :=
  match cells with
  | [] => ret a
  | (i, j) :: cells' => a' <- body i j a ;; scan cells' body a'
  end.

Fixpoint scan_return {A R} (cells : list (Z * Z))
    (body : Z -> Z -> A -> M (A + R)) (a : A) : M (A + R) :=
  match cells with
  | [] => ret (inl a)
  | (i, j) :: cells' =>
      r <- body i j a ;;
      match r with
      | inl a' => scan_return cells' body a'
      | inr v => ret (inr v)
      end
  end.

(** The tile at a cell of a well-shaped board. *)
Definition tile (b : board) (c : Z * Z) : Z :=
  default 0 (cell b (fst c) (snd c)).

Definition empty_at (b : board) (c : Z * Z) : bool := tile b c =? 0.

(** The test [move_available] makes at a cell. *)
Definition can_move_at (b : board) (c : Z * Z) : bool :=
  let '(i, j) := c in
  (tile b (i, j) =? 0)
  || ((i <? DIM - 1) && (tile b (i, j) =? tile b (i + 1, j)))
  || ((j <? DIM - 1) && (tile b (i, j) =? tile b (i, j + 1))).

(** The number of empty cells among [cells]. *)
Fixpoint zeros_in (b : board) (cells : list (Z * Z)) : Z :=
  match cells with
  | [] => 0
  | c :: cells' => (if empty_at b c then 1 else 0) + zeros_in b cells'
  end.

(** The board with [v] written at a cell. *)
Definition put (b : board) (c : Z * Z) (v : Z) : board :=
  default b (set_cell b (fst c) (snd c) v).

Definition in_board (c : Z * Z) : Prop :=
  in_bounds DIM (fst c) = true /\ in_bounds DIM (snd c) = true.

(** The number of tiles on the board. *)
Definition occupied (v : Z) : Z := if v =? 0 then 0 else 1.

Definition count_tiles (b : board) : Z :=
  fold_right Z.add 0 (map occupied (concat b)).

(** Some cell is empty; two neighbours, one below or beside the other,
    hold the same non-zero value. *)
Definition has_empty (b : board) : Prop :=
  exists i j, cell b i j = Some 0.

Definition has_pair (b : board) : Prop :=
  exists i j v,
    v <> 0 /\ cell b i j = Some v
    /\ (cell b (i + 1) j = Some v \/ cell b i (j + 1) = Some v).

(** [(i', j')] is visited before [(i, j)] in row-major order. *)
Definition before (c' c : Z * Z) : Prop :=
  fst c' < fst c \/ (fst c' = fst c /\ snd c' < snd c).

(** *** The undo stack as a list of snapshots *)

Definition snapshot : Type := list (list Z) * Z.

Definition wf_stack (u : stack) : bool :=
  Nat.eqb (length (undo_tiles u)) (Z.to_nat UNDO_CAPACITY)
  && Nat.eqb (length (undo_score u)) (Z.to_nat UNDO_CAPACITY)
  && in_bounds UNDO_CAPACITY (undo_top u)
  && (0 <=? undo_size u) && (undo_size u <=? UNDO_CAPACITY).

Definition snapshot_at (u : stack) (k : Z) : snapshot :=
  (default [] (undo_tiles u !! Z.to_nat k),
   default 0 (undo_score u !! Z.to_nat k)).

(** The snapshots the stack holds, the most recently pushed first:
    [size] entries going back cyclically from [top]. *)
Definition stack_entries (u : stack) : list snapshot :=
  map (fun k => snapshot_at u ((undo_top u - Z.of_nat k) mod UNDO_CAPACITY))
      (seq 0 (Z.to_nat (undo_size u))).

(** The game arrives at the tiles and score of a snapshot. *)
Definition set_live (s : snapshot) (g : game) : game :=
  mkGame (x g) (y g) (fst s) (snd s) (undo g).

(** The game goes through the snapshots of [l] in turn, pushing each. *)
Fixpoint pushes (l : list snapshot) (g : game) : option game :=
  match l with
  | [] => Some g
  | s :: l' =>
      match push_undo (set_live s g) with
      | Some (_, g') => pushes l' g'
      | None => None
      end
  end.

(** *** Games that fit the structure *)

Definition in_int (v : Z) : bool :=
  (-2147483648 <=? v) && (v <? 2147483648).

(** The arrays have their declared sizes and every member is an [int]. *)
Definition valid_game (g : game) : bool :=
  wf_board (tiles g)
  && Nat.eqb (length (undo_tiles (undo g))) (Z.to_nat UNDO_CAPACITY)
  && forallb wf_board (undo_tiles (undo g))
  && Nat.eqb (length (undo_score (undo g))) (Z.to_nat UNDO_CAPACITY)
  && forallb in_int (game_ints g).

(** *** Sample states *)

Definition example_board : list (list Z) :=
  [[0; 2; 0; 2]; [4; 0; 4; 4]; [2; 2; 2; 2]; [2; 4; 4; 2]].

Definition example_game : game :=
  mkGame 0 0 example_board 0 (mkStack [] [] 0 0).

Definition stuck_board : list (list Z) :=
  [[2; 4; 2; 4]; [4; 2; 4; 2]; [2; 4; 2; 4]; [4; 2; 4; 2]].

Definition empty_board : list (list Z) :=
  [[0; 0; 0; 0]; [0; 0; 0; 0]; [0; 0; 0; 0]; [0; 0; 0; 0]].

(** A game three moves in, and another one move in. *)
Definition saved_game : game :=
  mkGame 3 5 example_board 16
         (mkStack [empty_board; stuck_board; example_board; empty_board]
                  [0; 4; 16; 0] 2 3).

Definition live_game : game :=
  mkGame 3 5 stuck_board 4
         (mkStack [empty_board; stuck_board; empty_board; empty_board]
                  [0; 4; 0; 0] 1 2).

(** Five states of a game, in the order they are reached. *)
Definition five_snapshots : list snapshot :=
  [(empty_board, 0); (stuck_board, 4); (example_board, 16);
   (empty_board, 20); (stuck_board, 24)].

Definition good_disk : disk := mkDisk None true true.

(** A save file cut short after eight bytes. *)
Definition short_disk : disk :=
  mkDisk (Some (take 8 (game_bytes saved_game))) true true.

(** *** A push, said without the array

    The tiles of a line with the gaps taken out; the same tiles after
    equal neighbours have merged once, from the head of the line on,
    [unmerged] being the tile that still waits for a partner (0 for
    none); the values the merges produced; and the line filled up with
    empty cells again. *)
Definition tiles_of (l : list Z) : list Z :=
  List.filter (fun t => negb (t =? 0)) l.

Fixpoint merge_tiles (unmerged : Z) (l : list Z) : list Z :=
  match l with
  | [] => if unmerged =? 0 then [] else [unmerged]
  | t :: l' =>
      if t =? unmerged then int_mul unmerged 2 :: merge_tiles 0 l'
      else if unmerged =? 0 then merge_tiles t l'
      else unmerged :: merge_tiles t l'
  end.

Fixpoint merged_values (unmerged : Z) (l : list Z) : list Z :=
  match l with
  | [] => []
  | t :: l' =>
      if t =? unmerged then int_mul unmerged 2 :: merged_values 0 l'
      else merged_values t l'
  end.

Definition pad (l : list Z) : list Z :=
  l ++ repeat 0 (Z.to_nat DIM - length l)%nat.

Definition pushed_line (l : list Z) : list Z :=
  pad (merge_tiles 0 (tiles_of l)).

Definition line_gains (l : list Z) : list Z :=
  merged_values 0 (tiles_of l).

(** The sum of the tiles of a board. *)
Definition sum_tiles (b : list (list Z)) : Z :=
  fold_right Z.add 0 (concat b).

(** A tile that is empty or one of [2^1 .. 2^n]. *)
Definition power_tile (n : nat) (v : Z) : bool :=
  (v =? 0) || existsb (fun k => v =? 2 ^ Z.of_nat k) (seq 1 n).

(** The values a push in direction [d] creates by merging. *)
Definition board_gains (d : direction) (b : list (list Z)) : list Z :=
  concat (map line_gains (view d b)).

(** The board after a push in direction [d]. *)
Definition pushed_board (d : direction) (b : list (list Z)) : list (list Z) :=
  unview d (map pushed_line (view d b)).

(** Some cell holds a tile. *)
Definition has_tile (b : list (list Z)) : Prop :=
  exists i j v, cell b i j = Some v /\ v <> 0.

(** The sum of a list of tiles, and the number of tiles in a line. *)
Definition sum_list (l : list Z) : Z := fold_right Z.add 0 l.

Definition count_line (l : list Z) : Z := sum_list (map occupied l).

(** ** The main program, [nc_2048.c]

    The functions of [display.c] write to the terminal, which is not
    part of the state followed here.  Of what they do, only their
    effect on [g] is kept: [draw_grid] stores the top-left corner of the
    board in [g.y] and [g.x], and [redraw_all], which calls it, also
    calls [move_available]; [draw_tiles], [draw_logo], [display_help],
    [display_message] and [update_scoreboard] read [g] and leave it as
    it is. *)

(** The size of the window, as [getmaxyx] reports it. *)
Record window := mkWindow { maxy : Z; maxx : Z }.

(** [g.y = maxy/2 - 9; g.x = maxx/2 - 40;]: division of [int]s
    truncates. *)
Definition draw_grid (w : window) : M unit := fun g =>
  Some (tt, mkGame (int_add (Z.quot (maxx w) 2) (-40))
                   (int_add (Z.quot (maxy w) 2) (-9))
                   (tiles g) (score g) (undo g)).

Definition redraw_all (w : window) : M unit :=
  draw_grid w ;;
  _ <- move_available ;;
  ret tt.

(** [memset(g.tiles, 0, sizeof g.tiles)]. *)
Definition blank_tiles : list (list Z) :=
  repeat (repeat 0 (Z.to_nat DIM)) (Z.to_nat DIM).

Definition new_game (random_tiles : bool) (draw1 draw2 : Q) (w : window)
  : M unit :=
  (fun g => Some (tt, mkGame (x g) (y g) blank_tiles 0
                             (mkStack (undo_tiles (undo g))
                                      (undo_score (undo g)) 0 0))) ;;
  new_tile random_tiles draw1 draw2 ;;
  push_undo ;;
  redraw_all w.

(** The cases of the [switch] on the key pressed, after [toupper]. *)
Inductive key :=
| Key_N | Key_Ctrl_L | Key_D | Key_R | Key_H | Key_U | Key_S | Key_L
| Key_Left | Key_Right | Key_Up | Key_Down
| Key_other.

(** The toggles of [main]. *)
Record toggles := mkToggles {
  new_tile_needed : bool;
  help_toggle : bool;
  game_over : bool;
  random_tiles : bool
}.

(** What the world supplies during one pass of the loop: the key, the
    two numbers [drand48] would return, and the size of the window. *)
Record input := mkInput {
  pressed : key;
  draw1 : Q;
  draw2 : Q;
  win : window
}.

(** One pass of the [do ... while] loop of [main] from [getch] on:
    the [switch], the spawning of a tile and the end-of-game test.
    The save file is threaded along with the toggles. *)
Definition loop_body (inp : input) (st : toggles * disk)
  : M (toggles * disk) :=
  let '(t, d) := st in
  st' <-
    match pressed inp with
    | Key_N =>
        new_game (random_tiles t) (draw1 inp) (draw2 inp) (win inp) ;;
        ret (t, d)
    | Key_Ctrl_L => redraw_all (win inp) ;; ret (t, d)
    | Key_D =>
        ret (mkToggles (new_tile_needed t) (help_toggle t) (game_over t)
                       false, d)
    | Key_R =>
        ret (mkToggles (new_tile_needed t) (help_toggle t) (game_over t)
                       true, d)
    | Key_H =>
        ret (mkToggles (new_tile_needed t) (negb (help_toggle t))
                       (game_over t) (random_tiles t), d)
    | Key_U =>
        ok <- pop_undo ;;
        if ok
        then ret (mkToggles (new_tile_needed t) (help_toggle t) false
                            (random_tiles t), d)
        else ret (t, d)
    | Key_S => fun g => Some ((t, snd (save_game d g)), g)
    | Key_L =>
        ok <- load_game d ;;
        if negb ok then ret (t, d)
        else redraw_all (win inp) ;; ret (t, d)
    | Key_Left =>
        b <- left ;;
        ret (mkToggles b (help_toggle t) (game_over t) (random_tiles t), d)
    | Key_Right =>
        b <- right ;;
        ret (mkToggles b (help_toggle t) (game_over t) (random_tiles t), d)
    | Key_Up =>
        b <- up ;;
        ret (mkToggles b (help_toggle t) (game_over t) (random_tiles t), d)
    | Key_Down =>
        b <- down ;;
        ret (mkToggles b (help_toggle t) (game_over t) (random_tiles t), d)
    | Key_other => ret (t, d)
    end ;;
  let '(t, d) := st' in
  t <-
    (if new_tile_needed t then
       new_tile (random_tiles t) (draw1 inp) (draw2 inp) ;;
       push_undo ;;
       ret (mkToggles false (help_toggle t) (game_over t) (random_tiles t))
     else ret t) ;;
  b <- move_available ;;
  ret (mkToggles (new_tile_needed t) (help_toggle t) (negb b)
                 (random_tiles t), d).


(** The state of a game in play: a board of the declared shape and an
    undo stack in range whose newest snapshot is the tiles and the
    score the player sees, every older snapshot being a board of the
    declared shape too. *)
Definition in_play (g : game) : Prop :=
  wf_board (tiles g) = true
  /\ wf_stack (undo g) = true
  /\ exists older,
       stack_entries (undo g) = (tiles g, score g) :: older
       /\ Forall (fun s : snapshot => wf_board (fst s) = true) older.

(** [g] with the corner of the board where [draw_grid] puts it. *)
Definition with_corner (w : window) (g : game) : game :=
  mkGame (int_add (Z.quot (maxx w) 2) (-40))
         (int_add (Z.quot (maxy w) 2) (-9))
         (tiles g) (score g) (undo g).

(** ** Two computations of [draw_tiles], [display.c] *)

(** [while (tile_num >>= 1) colour_num++;], run for at most [fuel]
    rounds; [>>] on a non-negative [int] is [Z.shiftr]. *)
Fixpoint colour_loop (fuel : nat) (tile_num colour_num : Z) : option Z :=
  match fuel with
  | O => None
  | S fuel' =>
      let tile_num := Z.shiftr tile_num 1 in
      if negb (tile_num =? 0)
      then colour_loop fuel' tile_num (int_add colour_num 1)
      else Some colour_num
  end.

(** The number of the colour pair of a tile. *)
Definition colour_of (fuel : nat) (tile_num : Z) : option Z :=
  if negb (tile_num =? 0) then colour_loop fuel tile_num 0 else Some 0.


(** A game in play whose board can still be pushed. *)
Definition play_game : game :=
  mkGame 3 5 example_board 16
         (mkStack [stuck_board; example_board; empty_board; empty_board]
                  [4; 16; 0; 0] 1 2).

Definition some_window : window := mkWindow 24 80.

(** * Proofs *)

(** ** The monad and the simulation of one computation by another *)

Lemma wrap_range z : int_range (wrap z).
Proof.
  unfold int_range, wrap.
  pose proof (Z.mod_pos_bound (z + 2147483648) 4294967296). lia.
Qed.

Lemma wrap_small z : int_range z -> wrap z = z.
Proof. unfold int_range, wrap. intros H. rewrite Z.mod_small; lia. Qed.

Lemma wrap_add_l a b : wrap (wrap a + b) = wrap (a + b).
Proof.
  unfold wrap. f_equal.
  replace ((a + 2147483648) mod 4294967296 - 2147483648 + b + 2147483648)
    with ((a + 2147483648) mod 4294967296 + b) by lia.
  rewrite Zplus_mod_idemp_l. f_equal. lia.
Qed.

Section Simulation.
Variable phi : game -> game.
Variable I : game -> Prop.

Lemma sim_ret {A} (a : A) : sim phi I (ret a) (ret a).
Proof. intros g Hg. simpl. auto. Qed.

Lemma sim_bind {A B} (m1 m2 : M A) (k1 k2 : A -> M B) :
  sim phi I m1 m2 ->
  (forall a, sim phi I (k1 a) (k2 a)) ->
  sim phi I (bind m1 k1) (bind m2 k2).
Proof.
  intros Hm Hk g Hg. unfold bind.
  specialize (Hm g Hg).
  destruct (m1 g) as [[a g']|].
  - destruct Hm as [Hg' ->]. apply Hk, Hg'.
  - now rewrite Hm.
Qed.

Lemma sim_for {A} (b1 b2 : Z -> A -> M A) (l1 l2 : list Z) :
  Forall2 (fun i1 i2 => forall a, sim phi I (b1 i1 a) (b2 i2 a)) l1 l2 ->
  forall a, sim phi I (for_ l1 b1 a) (for_ l2 b2 a).
Proof.
  induction 1 as [|i1 i2 l1 l2 Hi _ IH]; intros a; simpl.
  - apply sim_ret.
  - apply sim_bind; auto.
Qed.

Lemma sim_add_score v :
  (forall g, I g -> I (set_score (int_add (score g) v) g)) ->
  (forall g, phi (set_score (int_add (score g) v) g)
             = set_score (int_add (score (phi g)) v) (phi g)) ->
  sim phi I (add_score v) (add_score v).
Proof.
  intros HI Hphi g Hg. unfold add_score. split; auto.
  now rewrite Hphi.
Qed.
End Simulation.

(** ** Deciding the comparisons a symbolic run is stuck on *)

Ltac split_eqb :=
  match goal with
  | H : (?x =? ?y) = _ |- context [?x =? ?y] => rewrite H
  | |- context [?x =? ?y] => destruct (x =? y) eqn:?
  end.

Ltac eqb_props :=
  repeat match goal with
         | H : (_ =? _) = true |- _ => apply Z.eqb_eq in H
         | H : (_ =? _) = false |- _ => apply Z.eqb_neq in H
         end.

(** ** Boards of the declared shape *)

Lemma wf_board_inv b :
  wf_board b = true ->
  exists a0 a1 a2 a3 b0 b1 b2 b3 c0 c1 c2 c3 d0 d1 d2 d3 : Z,
    b = [[a0; a1; a2; a3]; [b0; b1; b2; b3];
         [c0; c1; c2; c3]; [d0; d1; d2; d3]].
Proof.
  unfold wf_board. intros H.
  destruct b as [|r0 [|r1 [|r2 [|r3 [|r4 b]]]]]; try discriminate H.
  simpl in H.
  destruct r0 as [|? [|? [|? [|? [|? ?]]]]]; try discriminate H;
  destruct r1 as [|? [|? [|? [|? [|? ?]]]]]; try discriminate H;
  destruct r2 as [|? [|? [|? [|? [|? ?]]]]]; try discriminate H;
  destruct r3 as [|? [|? [|? [|? [|? ?]]]]]; try discriminate H.
  repeat eexists.
Qed.

Ltac board_shape H :=
  apply wf_board_inv in H;
  destruct H as (?a & ?a & ?a & ?a & ?b & ?b & ?b & ?b
                 & ?c & ?c & ?c & ?c & ?d & ?d & ?d & ?d & H).

Lemma in_bounds_4 k :
  in_bounds 4 k = true -> k = 0 \/ k = 1 \/ k = 2 \/ k = 3.
Proof. unfold in_bounds. lia. Qed.

Lemma in_bounds_flip k : in_bounds DIM (DIM - 1 - k) = in_bounds DIM k.
Proof. unfold in_bounds, DIM. lia. Qed.

(** Splits on whether the index [k] is within [0, DIM), and on which
    of the four it is. *)
Ltac index_cases k :=
  let E := fresh "E" in
  destruct (in_bounds DIM k) eqn:E;
  [ apply in_bounds_4 in E; destruct E as [-> | [-> | [-> | ->]]] | ].

Lemma cell_out_l b i j : in_bounds DIM i = false -> cell b i j = None.
Proof. unfold cell. now intros ->. Qed.

Lemma cell_out_r b i j : in_bounds DIM j = false -> cell b i j = None.
Proof. unfold cell. intros ->. now rewrite andb_false_r. Qed.

Lemma set_cell_out_l b i j v :
  in_bounds DIM i = false -> set_cell b i j v = None.
Proof. unfold set_cell. now intros ->. Qed.

Lemma set_cell_out_r b i j v :
  in_bounds DIM j = false -> set_cell b i j v = None.
Proof. unfold set_cell. intros ->. now rewrite andb_false_r. Qed.

Lemma wf_set_cell b i j v b' :
  wf_board b = true -> set_cell b i j v = Some b' -> wf_board b' = true.
Proof.
  intros H. board_shape H. subst b.
  index_cases i; [| | | |now rewrite set_cell_out_l];
  (index_cases j; [| | | |now rewrite set_cell_out_r]);
  intros [= <-]; reflexivity.
Qed.

Lemma cell_mirror b i j :
  wf_board b = true -> cell (mirror b) i (DIM - 1 - j) = cell b i j.
Proof.
  intros H. board_shape H. subst b.
  index_cases i; [| | | |now rewrite !cell_out_l];
  (index_cases j;
   [| | | |now rewrite !cell_out_r by (now rewrite ?in_bounds_flip)]);
  reflexivity.
Qed.

Lemma set_cell_mirror b i j v :
  wf_board b = true ->
  set_cell (mirror b) i (DIM - 1 - j) v = option_map mirror (set_cell b i j v).
Proof.
  intros H. board_shape H. subst b.
  index_cases i; [| | | |now rewrite !set_cell_out_l];
  (index_cases j;
   [| | | |now rewrite !set_cell_out_r by (now rewrite ?in_bounds_flip)]);
  reflexivity.
Qed.

Lemma cell_transpose b i j :
  wf_board b = true -> cell (transpose b) j i = cell b i j.
Proof.
  intros H. board_shape H. subst b.
  index_cases i;
    [| | | |now rewrite (cell_out_r _ j i), (cell_out_l _ i j)];
  (index_cases j;
    [| | | |now rewrite (cell_out_l _ j), (cell_out_r _ _ j)]);
  reflexivity.
Qed.

Lemma set_cell_transpose b i j v :
  wf_board b = true ->
  set_cell (transpose b) j i v = option_map transpose (set_cell b i j v).
Proof.
  intros H. board_shape H. subst b.
  index_cases i;
    [| | | |now rewrite (set_cell_out_r _ j i), (set_cell_out_l _ i j)];
  (index_cases j;
    [| | | |now rewrite (set_cell_out_l _ j), (set_cell_out_r _ _ j)]);
  reflexivity.
Qed.

Lemma mirror_mirror b : mirror (mirror b) = b.
Proof.
  unfold mirror. rewrite map_map. rewrite <- (map_id b) at 2.
  apply map_ext. intros r. apply rev_involutive.
Qed.

Lemma transpose_transpose b : wf_board b = true -> transpose (transpose b) = b.
Proof. intros H. board_shape H. now subst b. Qed.

Lemma wf_mirror b : wf_board b = true -> wf_board (mirror b) = true.
Proof. intros H. board_shape H. now subst b. Qed.

Lemma wf_transpose b : wf_board b = true -> wf_board (transpose b) = true.
Proof. intros H. board_shape H. now subst b. Qed.

(** ** Walking two computations of the same shape in step *)

Ltac sim_walk prim :=
  repeat first
    [ apply sim_ret
    | apply sim_bind; [ | intros ? ]
    | match goal with
      | |- sim _ _ (if ?c then _ else _) (if ?c then _ else _) => destruct c
      end
    | prim ].


(** ** [right] is [left] in the mirror *)

Section Mirror.
Let phi := on_tiles mirror.

Lemma sim_rd_mirror i j j' :
  j' = DIM - 1 - j -> sim phi wf_game (rd i j) (rd i j').
Proof.
  intros -> g Hg. unfold rd, phi, on_tiles. simpl.
  rewrite cell_mirror by exact Hg.
  destruct (cell (tiles g) i j); auto.
Qed.

Lemma sim_wr_mirror i j j' v :
  j' = DIM - 1 - j -> sim phi wf_game (wr i j v) (wr i j' v).
Proof.
  intros -> g Hg. unfold wr, phi, on_tiles. simpl.
  rewrite set_cell_mirror by exact Hg.
  destruct (set_cell (tiles g) i j v) as [b'|] eqn:E; simpl; auto.
  split; auto. eapply wf_set_cell; eauto.
Qed.

Lemma sim_score_mirror v : sim phi wf_game (add_score v) (add_score v).
Proof. apply sim_add_score; auto. Qed.

Ltac mirror_prim :=
  first [ apply sim_rd_mirror; unfold DIM; lia
        | apply sim_wr_mirror; unfold DIM; lia
        | apply sim_score_mirror ].

Lemma sim_right_cell i j st :
  sim phi wf_game (right_cell i j st) (left_cell i (DIM - 1 - j) st).
Proof.
  destruct st as [[zeros unmerged] f]. unfold right_cell, left_cell.
  sim_walk mirror_prim.
Qed.

Lemma sim_right_fill i zeros :
  sim phi wf_game (right_fill i zeros) (left_fill i zeros).
Proof.
  induction zeros as [|z IH]; [apply sim_ret|].
  cbn [right_fill left_fill]. sim_walk mirror_prim. exact IH.
Qed.

Lemma sim_right_line i f :
  sim phi wf_game (right_line i f) (left_line i f).
Proof.
  unfold right_line, left_line.
  apply sim_bind.
  { apply sim_for. repeat constructor; intros a; apply sim_right_cell. }
  intros [[zeros unmerged] f'].
  sim_walk mirror_prim. apply sim_right_fill.
Qed.

Lemma sim_right : sim phi wf_game right left.
Proof.
  apply sim_for. repeat constructor; intros a; apply sim_right_line.
Qed.
End Mirror.

(** ** [up] is [left], and [down] is [right], on the transposed board *)

Section Transpose.
Let phi := on_tiles transpose.

Lemma sim_rd_transpose i j : sim phi wf_game (rd i j) (rd j i).
Proof.
  intros g Hg. unfold rd, phi, on_tiles. simpl.
  rewrite cell_transpose by exact Hg.
  destruct (cell (tiles g) i j); auto.
Qed.

Lemma sim_wr_transpose i j v : sim phi wf_game (wr i j v) (wr j i v).
Proof.
  intros g Hg. unfold wr, phi, on_tiles. simpl.
  rewrite set_cell_transpose by exact Hg.
  destruct (set_cell (tiles g) i j v) as [b'|] eqn:E; simpl; auto.
  split; auto. eapply wf_set_cell; eauto.
Qed.

Lemma sim_score_transpose v : sim phi wf_game (add_score v) (add_score v).
Proof. apply sim_add_score; auto. Qed.

Ltac transpose_prim :=
  first [ apply sim_rd_transpose | apply sim_wr_transpose
        | apply sim_score_transpose ].

Lemma sim_up_cell j i st :
  sim phi wf_game (up_cell j i st) (left_cell j i st).
Proof.
  destruct st as [[zeros unmerged] f]. unfold up_cell, left_cell.
  sim_walk transpose_prim.
Qed.

Lemma sim_up_fill j zeros :
  sim phi wf_game (up_fill j zeros) (left_fill j zeros).
Proof.
  induction zeros as [|z IH]; [apply sim_ret|].
  cbn [up_fill left_fill]. sim_walk transpose_prim. exact IH.
Qed.

Lemma sim_up_line j f : sim phi wf_game (up_line j f) (left_line j f).
Proof.
  unfold up_line, left_line.
  apply sim_bind.
  { apply sim_for. repeat constructor; intros a; apply sim_up_cell. }
  intros [[zeros unmerged] f'].
  sim_walk transpose_prim. apply sim_up_fill.
Qed.

Lemma sim_up : sim phi wf_game up left.
Proof. apply sim_for. repeat constructor; intros a; apply sim_up_line. Qed.

Lemma sim_down_cell j i st :
  sim phi wf_game (down_cell j i st) (right_cell j i st).
Proof.
  destruct st as [[zeros unmerged] f]. unfold down_cell, right_cell.
  sim_walk transpose_prim.
Qed.

Lemma sim_down_fill j zeros :
  sim phi wf_game (down_fill j zeros) (right_fill j zeros).
Proof.
  induction zeros as [|z IH]; [apply sim_ret|].
  cbn [down_fill right_fill]. sim_walk transpose_prim. exact IH.
Qed.

Lemma sim_down_line j f : sim phi wf_game (down_line j f) (right_line j f).
Proof.
  unfold down_line, right_line.
  apply sim_bind.
  { apply sim_for. repeat constructor; intros a; apply sim_down_cell. }
  intros [[zeros unmerged] f'].
  sim_walk transpose_prim. apply sim_down_fill.
Qed.

Lemma sim_down : sim phi wf_game down right.
Proof.
  apply sim_for. repeat constructor; intros a; apply sim_down_line.
Qed.
End Transpose.

(** From a simulation along an involution to a conjugation. *)
Lemma sim_conjugate {A} (f : board -> board) (m1 m2 : M A) g :
  sim (on_tiles f) wf_game m1 m2 ->
  (forall b, wf_board b = true -> f (f b) = b) ->
  wf_game g ->
  m1 g = conjugate f m2 g.
Proof.
  intros Hsim Hinv Hg. unfold conjugate.
  specialize (Hsim g Hg).
  destruct (m1 g) as [[a g']|].
  - destruct Hsim as [Hg' ->]. do 2 f_equal.
    destruct g'. unfold on_tiles, set_tiles. simpl. f_equal.
    symmetry. apply Hinv, Hg'.
  - now rewrite Hsim.
Qed.

Lemma push_conjugates g :
  wf_board (tiles g) = true ->
  right g = conjugate mirror left g
  /\ up g = conjugate transpose left g
  /\ down g = conjugate transpose right g.
Proof.
  intros Hg. repeat split.
  - apply sim_conjugate; auto using sim_right. intros; apply mirror_mirror.
  - apply sim_conjugate; auto using sim_up, transpose_transpose.
  - apply sim_conjugate; auto using sim_down, transpose_transpose.
Qed.

Section Embed.
Variable i : Z.
Variable g0 : game.
Hypothesis Hi : in_bounds DIM i = true.
Hypothesis Hlen : length (tiles g0) = Z.to_nat DIM.

Let phi := embed i g0.

Lemma embed_lookup r :
  <[Z.to_nat i := r]> (tiles g0) !! Z.to_nat i = Some r.
Proof.
  apply list_lookup_insert_eq. rewrite Hlen.
  unfold in_bounds, DIM in *. lia.
Qed.

Lemma sim_rd_embed j : sim phi is_row (rd 0 j) (rd i j).
Proof.
  intros g (r & Hr & Hlr). unfold rd.
  assert (Hrow : the_row g = r) by (unfold the_row; now rewrite Hr).
  assert (E1 : cell (tiles g) 0 j
               = if in_bounds DIM j then r !! Z.to_nat j else None)
    by (now rewrite Hr).
  assert (E2 : cell (tiles (phi g)) i j
               = if in_bounds DIM j then r !! Z.to_nat j else None).
  { unfold phi, embed, cell. cbn [tiles].
    now rewrite Hrow, Hi, embed_lookup. }
  rewrite E1, E2.
  destruct (in_bounds DIM j); [|reflexivity].
  destruct (r !! Z.to_nat j); [|reflexivity].
  split; [exists r; auto | reflexivity].
Qed.

Lemma sim_wr_embed j v : sim phi is_row (wr 0 j v) (wr i j v).
Proof.
  intros g (r & Hr & Hlr). unfold wr.
  assert (Hrow : the_row g = r) by (unfold the_row; now rewrite Hr).
  assert (E1 : set_cell (tiles g) 0 j v
               = if in_bounds DIM j then
                   if (Z.to_nat j <? length r)%nat
                   then Some [<[Z.to_nat j := v]> r] else None
                 else None)
    by (now rewrite Hr).
  assert (E2 : set_cell (tiles (phi g)) i j v
               = if in_bounds DIM j then
                   if (Z.to_nat j <? length r)%nat
                   then Some (<[Z.to_nat i := <[Z.to_nat j := v]> r]>
                                (tiles g0))
                   else None
                 else None).
  { unfold phi, embed, set_cell. cbn [tiles].
    rewrite Hrow, Hi, embed_lookup. cbn [andb].
    destruct (in_bounds DIM j); [|reflexivity].
    destruct (Z.to_nat j <? length r)%nat; [|reflexivity].
    f_equal. apply list_insert_insert_eq. }
  rewrite E1, E2.
  destruct (in_bounds DIM j); [|reflexivity].
  destruct (Z.to_nat j <? length r)%nat; [|reflexivity].
  split; [|reflexivity].
  eexists. split; [reflexivity|]. now rewrite length_insert.
Qed.

Lemma sim_score_embed v : sim phi is_row (add_score v) (add_score v).
Proof. apply sim_add_score; auto. Qed.

Ltac embed_prim :=
  first [ apply sim_rd_embed | apply sim_wr_embed | apply sim_score_embed ].

Lemma sim_left_cell_embed j st :
  sim phi is_row (left_cell 0 j st) (left_cell i j st).
Proof.
  destruct st as [[zeros unmerged] f]. unfold left_cell.
  sim_walk embed_prim.
Qed.

Lemma sim_left_fill_embed zeros :
  sim phi is_row (left_fill 0 zeros) (left_fill i zeros).
Proof.
  induction zeros as [|z IH]; [apply sim_ret|].
  cbn [left_fill]. sim_walk embed_prim. exact IH.
Qed.

Lemma sim_left_line_embed f :
  sim phi is_row (left_line 0 f) (left_line i f).
Proof.
  unfold left_line.
  apply sim_bind.
  { apply sim_for. repeat constructor; intros a; apply sim_left_cell_embed. }
  intros [[zeros unmerged] f'].
  sim_walk embed_prim. apply sim_left_fill_embed.
Qed.
End Embed.


Lemma wrap_add_r a b : wrap (a + wrap b) = wrap (a + b).
Proof. rewrite Z.add_comm, wrap_add_l. f_equal. lia. Qed.

Lemma wrap_wrap a : wrap (wrap a) = wrap a.
Proof. apply wrap_small, wrap_range. Qed.




(** ** One row, case by case *)

(** Symbolic execution of a scan over a row of four unknown tiles: the
    code is evaluated as far as it goes, then the comparison it is
    stuck on is decided both ways. *)
Ltac norm_row :=
  cbv -[Z.eqb int_add int_mul];
  repeat (rewrite Z.eqb_refl; cbv -[Z.eqb int_add int_mul]).

Ltac run_row := norm_row; repeat (split_eqb; norm_row).

Lemma left_line_row a b c d s f :
  left_line 0 f (one_row [a; b; c; d] s)
  = Some (f || row_moved [a; b; c; d],
          one_row (push_row [a; b; c; d]) (row_score [a; b; c; d] s)).
Proof. run_row; destruct f; reflexivity. Qed.


Ltac row_leaf :=
  eqb_props; repeat split; intros;
  try discriminate; try reflexivity;
  try (simplify_eq; first [lia | congruence]).

Lemma row_unmoved a b c d :
  (row_moved [a; b; c; d] = false <-> push_row [a; b; c; d] = [a; b; c; d])
  /\ (row_moved [a; b; c; d] = false ->
      forall s, row_score [a; b; c; d] s = s).
Proof. run_row; row_leaf. Qed.

Lemma row_length a b c d : length (push_row [a; b; c; d]) = 4%nat.
Proof. run_row; reflexivity. Qed.

(** ** [left], row by row *)

Lemma row_shape (r : list Z) :
  length r = Z.to_nat DIM -> exists a b c d, r = [a; b; c; d].
Proof.
  destruct r as [|a [|b [|c [|d [|e r]]]]]; try discriminate.
  intros _. now exists a, b, c, d.
Qed.

Lemma left_line_at i g r f :
  in_bounds DIM i = true ->
  length (tiles g) = Z.to_nat DIM ->
  tiles g !! Z.to_nat i = Some r ->
  length r = Z.to_nat DIM ->
  left_line i f g
  = Some (f || row_moved r,
          mkGame (x g) (y g) (<[Z.to_nat i := push_row r]> (tiles g))
                 (row_score r (score g)) (undo g)).
Proof.
  intros Hi Hlen Hr Hlr.
  destruct (row_shape r Hlr) as (a & b & c & d & ->).
  pose proof (sim_left_line_embed i g Hi Hlen f
                (one_row [a; b; c; d] (score g))) as H.
  rewrite left_line_row in H.
  destruct H as [_ H]; [now exists [a; b; c; d]|].
  replace (embed i g (one_row [a; b; c; d] (score g))) with g in H.
  - exact H.
  - unfold embed.
    change (the_row (one_row [a; b; c; d] (score g))) with [a; b; c; d].
    change (score (one_row [a; b; c; d] (score g))) with (score g).
    rewrite list_insert_id by exact Hr. now destruct g.
Qed.

Lemma left_by_rows g r0 r1 r2 r3 :
  tiles g = [r0; r1; r2; r3] ->
  wf_board (tiles g) = true ->
  left g
  = Some (row_moved r0 || row_moved r1 || row_moved r2 || row_moved r3,
          mkGame (x g) (y g)
                 [push_row r0; push_row r1; push_row r2; push_row r3]
                 (row_score r3 (row_score r2 (row_score r1
                    (row_score r0 (score g)))))
                 (undo g)).
Proof.
  intros Ht Hwf. rewrite Ht in Hwf.
  apply andb_prop in Hwf as [_ Hwf]. cbn [forallb] in Hwf.
  repeat (apply andb_prop in Hwf as [?%Nat.eqb_eq Hwf]).
  destruct (row_shape r0) as (a0 & a1 & a2 & a3 & ->); [assumption|].
  destruct (row_shape r1) as (b0 & b1 & b2 & b3 & ->); [assumption|].
  destruct (row_shape r2) as (c0 & c1 & c2 & c3 & ->); [assumption|].
  destruct (row_shape r3) as (d0 & d1 & d2 & d3 & ->); [assumption|].
  unfold left. change (upto DIM) with [0; 1; 2; 3].
  cbn [for_]. unfold bind.
  rewrite (left_line_at 0 _ [a0; a1; a2; a3])
    by (try reflexivity; rewrite Ht; reflexivity).
  rewrite (left_line_at 1 _ [b0; b1; b2; b3])
    by (try reflexivity; cbn [tiles]; rewrite Ht; reflexivity).
  rewrite (left_line_at 2 _ [c0; c1; c2; c3])
    by (try reflexivity; cbn [tiles]; rewrite Ht; reflexivity).
  rewrite (left_line_at 3 _ [d0; d1; d2; d3])
    by (try reflexivity; cbn [tiles]; rewrite Ht; reflexivity).
  cbn [x y tiles score undo ret]. rewrite Ht. reflexivity.
Qed.

Lemma left_spec g :
  wf_board (tiles g) = true ->
  left g
  = Some (board_moved (tiles g),
          mkGame (x g) (y g) (map push_row (tiles g))
                 (board_score (tiles g) (score g)) (undo g)).
Proof.
  intros Hwf. pose proof Hwf as H. board_shape H.
  erewrite left_by_rows by eassumption.
  rewrite H. unfold board_moved, board_score.
  cbn [existsb fold_left map]. rewrite orb_false_r, !orb_assoc.
  reflexivity.
Qed.

(** ** Every push is [left] on the board as the push sees it *)

Lemma view_unview d b : wf_board b = true -> view d (unview d b) = b.
Proof. intros H. board_shape H. subst b. now destruct d. Qed.

Lemma unview_view d b : wf_board b = true -> unview d (view d b) = b.
Proof. intros H. board_shape H. subst b. now destruct d. Qed.

Lemma wf_view d b : wf_board b = true -> wf_board (view d b) = true.
Proof. intros H. board_shape H. subst b. now destruct d. Qed.

Lemma wf_unview d b : wf_board b = true -> wf_board (unview d b) = true.
Proof. intros H. board_shape H. subst b. now destruct d. Qed.

Lemma wf_push_rows b :
  wf_board b = true -> wf_board (map push_row b) = true.
Proof.
  intros H. board_shape H. subst b. unfold wf_board.
  cbn [map length forallb]. now rewrite !row_length.
Qed.

Lemma push_view d g :
  wf_board (tiles g) = true ->
  push d g
  = match left (on_tiles (view d) g) with
    | Some (c, g') => Some (c, on_tiles (unview d) g')
    | None => None
    end.
Proof.
  intros Hwf. destruct (push_conjugates g Hwf) as (Hr & Hu & Hd).
  destruct d; cbn [push view unview].
  - unfold on_tiles, set_tiles. destruct g; cbn.
    destruct (left _) as [[c [? ? ? ? ?]]|]; reflexivity.
  - exact Hr.
  - exact Hu.
  - rewrite Hd. unfold conjugate.
    destruct (push_conjugates (on_tiles transpose g)) as (Hr' & _).
    { now apply wf_transpose. }
    rewrite Hr'. unfold conjugate.
    change (on_tiles mirror (on_tiles transpose g))
      with (on_tiles (fun b => mirror (transpose b)) g).
    destruct (left _) as [[c g']|]; reflexivity.
Qed.

Lemma push_spec d g :
  wf_board (tiles g) = true ->
  push d g
  = Some (board_moved (view d (tiles g)),
          mkGame (x g) (y g)
                 (unview d (map push_row (view d (tiles g))))
                 (board_score (view d (tiles g)) (score g)) (undo g)).
Proof.
  intros Hwf. rewrite push_view by exact Hwf.
  rewrite left_spec by (now apply wf_view).
  reflexivity.
Qed.

(** ** Moved or not *)

Lemma board_unmoved b :
  wf_board b = true ->
  (board_moved b = false <-> map push_row b = b)
  /\ (board_moved b = false -> forall s, board_score b s = s).
Proof.
  intros H. board_shape H. subst b. unfold board_moved, board_score.
  cbn [existsb map fold_left]. rewrite orb_false_r.
  destruct (row_unmoved a a0 a1 a2) as [[A1 A2] A3].
  destruct (row_unmoved b0 b1 b2 b3) as [[B1 B2] B3].
  destruct (row_unmoved c c0 c1 c2) as [[C1 C2] C3].
  destruct (row_unmoved d d0 d1 d2) as [[D1 D2] D3].
  repeat split.
  - intros H. repeat (apply orb_false_elim in H as [? H]).
    now rewrite A1, B1, C1, D1.
  - intros [= Ea Eb Ec Ed].
    now rewrite A2, B2, C2, D2.
  - intros H s. repeat (apply orb_false_elim in H as [? H]).
    now rewrite A3, B3, C3, D3.
Qed.

(** ** A second push of the same kind *)

Lemma int_mul_2 a : doubles a = true -> int_mul a 2 = 2 * a.
Proof.
  unfold doubles, int_mul. intros H.
  rewrite wrap_small; [lia|]. unfold int_range. lia.
Qed.

(** On a line that is already packed, a push moves something exactly
    when it merges. *)
Lemma compact_moved a b c d :
  compact [a; b; c; d] = true ->
  row_moved [a; b; c; d] = adjacent_equal [a; b; c; d].
Proof.
  run_row; intros; try reflexivity; try discriminate;
    eqb_props; exfalso; lia.
Qed.

(** A push packs the line, as long as no merge overflows to zero. *)
Lemma push_row_compact a b c d :
  doubles a = true -> doubles b = true ->
  doubles c = true -> doubles d = true ->
  compact (push_row [a; b; c; d]) = true.
Proof.
  intros Ha Hb Hc Hd.
  run_row; try reflexivity;
    eqb_props; rewrite ?int_mul_2 in * by assumption; exfalso; lia.
Qed.

Lemma second_row a b c d :
  doubles a = true -> doubles b = true ->
  doubles c = true -> doubles d = true ->
  row_moved (push_row [a; b; c; d]) = adjacent_equal (push_row [a; b; c; d]).
Proof.
  intros Ha Hb Hc Hd.
  pose proof (push_row_compact a b c d Ha Hb Hc Hd) as Hc'.
  destruct (row_shape (push_row [a; b; c; d])) as (a' & b' & c' & d' & E).
  { apply row_length. }
  rewrite E in *. now apply compact_moved.
Qed.

Lemma doubles_view d b :
  wf_board b = true ->
  forallb (forallb doubles) b = true ->
  forallb (forallb doubles) (view d b) = true.
Proof.
  intros H Hd. board_shape H. subst b. cbn [forallb] in Hd.
  repeat (apply andb_prop in Hd as [? Hd]).
  repeat match goal with
         | H : context [_ && true] |- _ => rewrite andb_true_r in H
         end.
  repeat match goal with
         | H : _ && _ = true |- _ => apply andb_prop in H as [? ?]
         end.
  destruct d; cbv -[doubles];
    repeat match goal with
           | H : doubles _ = true |- _ => rewrite H; clear H
           end; reflexivity.
Qed.

Lemma second_board b :
  wf_board b = true ->
  forallb (forallb doubles) b = true ->
  board_moved (map push_row b) = existsb adjacent_equal (map push_row b).
Proof.
  intros H Hd. board_shape H. subst b. cbn [forallb] in Hd.
  repeat (apply andb_prop in Hd as [? Hd]).
  repeat match goal with
         | H : context [_ && true] |- _ => rewrite andb_true_r in H
         end.
  repeat match goal with
         | H : _ && _ = true |- _ => apply andb_prop in H as [? ?]
         end.
  unfold board_moved. cbn [map existsb].
  now rewrite !second_row by assumption.
Qed.

Lemma second_push_spec d g :
  wf_board (tiles g) = true ->
  forallb (forallb doubles) (tiles g) = true ->
  exists c1 g1 c2 g2,
    push d g = Some (c1, g1)
    /\ push d g1 = Some (c2, g2)
    /\ c2 = existsb adjacent_equal (view d (tiles g1)).
Proof.
  intros Hwf Hd.
  assert (Hv : wf_board (view d (tiles g)) = true) by now apply wf_view.
  assert (Hp : wf_board (map push_row (view d (tiles g))) = true)
    by now apply wf_push_rows.
  do 4 eexists. split; [apply push_spec, Hwf|].
  split.
  - apply push_spec. cbn [tiles]. now apply wf_unview.
  - cbn [tiles]. rewrite view_unview by exact Hp.
    apply second_board; [exact Hv|]. now apply doubles_view.
Qed.

Lemma push_changed_spec d g :
  wf_board (tiles g) = true ->
  exists c g',
    push d g = Some (c, g')
    /\ (c = false <-> tiles g' = tiles g)
    /\ (c = false -> score g' = score g).
Proof.
  intros Hwf.
  assert (Hv : wf_board (view d (tiles g)) = true) by now apply wf_view.
  destruct (board_unmoved _ Hv) as [[U1 U2] U3].
  do 2 eexists. split; [apply push_spec, Hwf|]. cbn [tiles score].
  repeat split.
  - intros H. rewrite (U1 H). now apply unview_view.
  - intros H. apply U2. rewrite <- H at 2.
    rewrite view_unview; [reflexivity|]. now apply wf_push_rows.
  - intros H. now apply U3.
Qed.


(** ** The nested loops as one scan *)

Lemma nested_for {A} (body : Z -> Z -> A -> M A) a g :
  for_ (upto DIM) (fun i => for_ (upto DIM) (body i)) a g
  = scan all_cells body a g.
Proof.
  change (upto DIM) with [0; 1; 2; 3].
  change all_cells with
    [(0,0); (0,1); (0,2); (0,3); (1,0); (1,1); (1,2); (1,3);
     (2,0); (2,1); (2,2); (2,3); (3,0); (3,1); (3,2); (3,3)].
  cbn [for_ scan]. unfold bind, ret.
  repeat match goal with
         | |- context [body ?i ?j ?a ?g] =>
             destruct (body i j a g) as [[? ?]|]; [|reflexivity]
         end.
  reflexivity.
Qed.

Lemma nested_for_return {A R} (body : Z -> Z -> A -> M (A + R)) a g :
  for_return (upto DIM) (fun i => for_return (upto DIM) (body i)) a g
  = scan_return all_cells body a g.
Proof.
  change (upto DIM) with [0; 1; 2; 3].
  change all_cells with
    [(0,0); (0,1); (0,2); (0,3); (1,0); (1,1); (1,2); (1,3);
     (2,0); (2,1); (2,2); (2,3); (3,0); (3,1); (3,2); (3,3)].
  cbn [for_return scan_return]. unfold bind, ret.
  repeat match goal with
         | |- context [body ?i ?j ?a ?g] =>
             destruct (body i j a g) as [[[?|?] ?]|]; try reflexivity
         end.
Qed.

Lemma all_cells_in_board : Forall in_board all_cells.
Proof. repeat constructor. Qed.

Lemma in_board_all_cells c : in_board c -> In c all_cells.
Proof.
  destruct c as [i j]. intros [Hi Hj]. cbn in Hi, Hj.
  apply in_bounds_4 in Hi, Hj.
  destruct Hi as [-> | [-> | [-> | ->]]];
  destruct Hj as [-> | [-> | [-> | ->]]]; cbn;
    repeat (first [left; reflexivity | right]).
Qed.

Lemma cell_tile b c :
  wf_board b = true -> in_board c -> cell b (fst c) (snd c) = Some (tile b c).
Proof.
  intros H [Hi Hj]. destruct c as [i j]. cbn [fst snd] in *.
  board_shape H. subst b. unfold tile. cbn [fst snd].
  apply in_bounds_4 in Hi, Hj.
  destruct Hi as [-> | [-> | [-> | ->]]];
  destruct Hj as [-> | [-> | [-> | ->]]]; reflexivity.
Qed.

Lemma cell_in_board b i j v : cell b i j = Some v -> in_board (i, j).
Proof.
  unfold cell, in_board. cbn [fst snd].
  destruct (in_bounds DIM i), (in_bounds DIM j); cbn; auto; discriminate.
Qed.

Lemma rd_tile g i j :
  wf_board (tiles g) = true -> in_board (i, j) ->
  rd i j g = Some (tile (tiles g) (i, j), g).
Proof.
  intros H Hc. unfold rd.
  pose proof (cell_tile (tiles g) (i, j) H Hc) as E.
  cbn [fst snd] in E. now rewrite E.
Qed.

(** ** [move_available] *)

Ltac norm_cells :=
  cbv -[Z.eqb]; repeat (rewrite Z.eqb_refl; cbv -[Z.eqb]).

Ltac run_cells := norm_cells; repeat (split_eqb; norm_cells).

Ltac in_board_cases H :=
  let Hi := fresh "Hi" in
  let Hj := fresh "Hj" in
  destruct H as [Hi Hj]; cbn [fst snd] in Hi, Hj;
  apply in_bounds_4 in Hi, Hj;
  destruct Hi as [-> | [-> | [-> | ->]]];
  destruct Hj as [-> | [-> | [-> | ->]]].

Lemma move_cell_spec g i j :
  wf_board (tiles g) = true -> in_board (i, j) ->
  move_cell i j tt g
  = Some (if can_move_at (tiles g) (i, j) then inr true else inl tt, g).
Proof.
  intros H Hc. destruct g as [gx gy b s u]. cbn [tiles] in *.
  board_shape H. subst b.
  in_board_cases Hc; run_cells; reflexivity.
Qed.

Lemma scan_move g cells :
  wf_board (tiles g) = true -> Forall in_board cells ->
  scan_return cells move_cell tt g
  = Some (if existsb (can_move_at (tiles g)) cells
          then inr true else inl tt, g).
Proof.
  intros H Hc. induction Hc as [|[i j] cells Hij _ IH]; [reflexivity|].
  cbn [scan_return existsb]. unfold bind.
  rewrite move_cell_spec by assumption.
  destruct (can_move_at (tiles g) (i, j)); [reflexivity|exact IH].
Qed.

Lemma move_available_spec g :
  wf_board (tiles g) = true ->
  move_available g = Some (existsb (can_move_at (tiles g)) all_cells, g).
Proof.
  intros H. unfold move_available, bind.
  rewrite nested_for_return, scan_move by auto using all_cells_in_board.
  now destruct (existsb _ _).
Qed.

Lemma can_move_sound b c :
  wf_board b = true -> in_board c ->
  can_move_at b c = true -> has_empty b \/ has_pair b.
Proof.
  intros H Hc. destruct c as [i j]. unfold can_move_at.
  intros Hm. apply orb_prop in Hm as [Hm|Hm];
    [apply orb_prop in Hm as [Hm|Hm]|].
  - left. exists i, j. apply Z.eqb_eq in Hm.
    pose proof (cell_tile b (i, j) H Hc) as E. cbn [fst snd] in E.
    now rewrite E, Hm.
  - apply andb_prop in Hm as [Hi Hm]. apply Z.eqb_eq in Hm.
    assert (Hc' : in_board (i + 1, j)).
    { destruct Hc as [Hi' Hj']. split; [|exact Hj'].
      cbn [fst snd] in *. unfold in_bounds, DIM in *. lia. }
    pose proof (cell_tile b (i, j) H Hc) as E. cbn [fst snd] in E.
    pose proof (cell_tile b (i + 1, j) H Hc') as E'. cbn [fst snd] in E'.
    destruct (Z.eq_dec (tile b (i, j)) 0) as [Hz|Hz].
    + left. exists i, j. now rewrite E, Hz.
    + right. exists i, j, (tile b (i, j)).
      split; [exact Hz|]. split; [exact E|]. left. now rewrite E', Hm.
  - apply andb_prop in Hm as [Hj Hm]. apply Z.eqb_eq in Hm.
    assert (Hc' : in_board (i, j + 1)).
    { destruct Hc as [Hi' Hj']. split; [exact Hi'|].
      cbn [fst snd] in *. unfold in_bounds, DIM in *. lia. }
    pose proof (cell_tile b (i, j) H Hc) as E. cbn [fst snd] in E.
    pose proof (cell_tile b (i, j + 1) H Hc') as E'. cbn [fst snd] in E'.
    destruct (Z.eq_dec (tile b (i, j)) 0) as [Hz|Hz].
    + left. exists i, j. now rewrite E, Hz.
    + right. exists i, j, (tile b (i, j)).
      split; [exact Hz|]. split; [exact E|]. right. now rewrite E', Hm.
Qed.

Lemma tile_of_cell b i j v : cell b i j = Some v -> tile b (i, j) = v.
Proof. unfold tile. cbn [fst snd]. now intros ->. Qed.

Lemma can_move_empty b i j :
  cell b i j = Some 0 -> can_move_at b (i, j) = true.
Proof.
  intros E. unfold can_move_at. now rewrite (tile_of_cell _ _ _ _ E).
Qed.

Lemma can_move_pair b i j v :
  cell b i j = Some v ->
  cell b (i + 1) j = Some v \/ cell b i (j + 1) = Some v ->
  can_move_at b (i, j) = true.
Proof.
  intros E [E'|E']; unfold can_move_at;
    rewrite (tile_of_cell _ _ _ _ E), (tile_of_cell _ _ _ _ E'), Z.eqb_refl;
    apply cell_in_board in E' as [Hi Hj]; cbn [fst snd] in *;
    unfold in_bounds, DIM in *.
  - replace (i <? 4 - 1) with true by lia.
    cbn. now rewrite orb_true_r.
  - replace (j <? 4 - 1) with true by lia.
    cbn. now rewrite orb_true_r.
Qed.

Lemma move_available_correct g :
  wf_board (tiles g) = true ->
  exists r,
    move_available g = Some (r, g)
    /\ (r = false <-> ~ has_empty (tiles g) /\ ~ has_pair (tiles g))
    /\ (has_empty (tiles g) -> r = true).
Proof.
  intros H. eexists. split; [apply move_available_spec, H|].
  assert (Hempty : has_empty (tiles g) ->
                   existsb (can_move_at (tiles g)) all_cells = true).
  { intros (i & j & E). apply existsb_exists. exists (i, j).
    split; [|now apply can_move_empty].
    apply in_board_all_cells. eapply cell_in_board, E. }
  split; [split|exact Hempty].
  - intros Hf. split.
    + intros He. rewrite (Hempty He) in Hf. discriminate.
    + intros (i & j & v & Hv & E & E').
      assert (existsb (can_move_at (tiles g)) all_cells = true) as Ht.
      { apply existsb_exists. exists (i, j).
        split; [|now apply (can_move_pair _ _ _ v)].
        apply in_board_all_cells. eapply cell_in_board, E. }
      rewrite Ht in Hf. discriminate.
  - intros [Hne Hnp].
    destruct (existsb (can_move_at (tiles g)) all_cells) eqn:Ht;
      [|reflexivity].
    apply existsb_exists in Ht as (c & Hin & Hc).
    assert (Hcb : in_board c).
    { pose proof all_cells_in_board as Hall.
      rewrite List.Forall_forall in Hall. now apply Hall. }
    destruct (can_move_sound (tiles g) c H Hcb Hc); contradiction.
Qed.

(** ** [new_tile] *)

Lemma count_cell_spec g c n :
  wf_board (tiles g) = true -> in_board c ->
  count_cell (fst c) (snd c) n g
  = Some (n + (if empty_at (tiles g) c then 1 else 0), g).
Proof.
  intros H Hc. destruct c as [i j]. cbn [fst snd].
  unfold count_cell, bind. rewrite rd_tile by assumption.
  unfold empty_at. destruct (tile (tiles g) (i, j) =? 0); unfold ret.
  - reflexivity.
  - now rewrite Z.add_0_r.
Qed.

Lemma scan_count g cells n :
  wf_board (tiles g) = true -> Forall in_board cells ->
  scan cells count_cell n g = Some (n + zeros_in (tiles g) cells, g).
Proof.
  intros H Hc. revert n.
  induction Hc as [|[i j] cells Hij _ IH]; intros n.
  - cbn. unfold ret. now rewrite Z.add_0_r.
  - cbn [scan zeros_in]. unfold bind.
    rewrite (count_cell_spec g (i, j)) by assumption.
    rewrite IH. do 2 f_equal. lia.
Qed.

Lemma zeros_in_nonneg b cells : 0 <= zeros_in b cells.
Proof.
  induction cells as [|c cells IH]; cbn [zeros_in]; [lia|].
  destruct (empty_at b c); lia.
Qed.

Lemma zeros_in_pos b cells c :
  In c cells -> empty_at b c = true -> 1 <= zeros_in b cells.
Proof.
  induction cells as [|c' cells IH]; [contradiction|].
  intros [->|Hin] He; cbn [zeros_in].
  - rewrite He. pose proof (zeros_in_nonneg b cells). lia.
  - specialize (IH Hin He). destruct (empty_at b c'); lia.
Qed.

Lemma zeros_in_none b cells :
  zeros_in b cells = 0 -> forall c, In c cells -> empty_at b c = false.
Proof.
  induction cells as [|c' cells IH]; [contradiction|].
  cbn [zeros_in]. intros Hz c [->|Hin].
  - pose proof (zeros_in_nonneg b cells).
    destruct (empty_at b c); [lia|reflexivity].
  - apply IH; [|exact Hin].
    pose proof (zeros_in_nonneg b cells).
    destruct (empty_at b c'); lia.
Qed.

Lemma set_cell_put b c v :
  wf_board b = true -> in_board c ->
  set_cell b (fst c) (snd c) v = Some (put b c v).
Proof.
  intros H Hc. destruct c as [i j]. unfold put. cbn [fst snd].
  board_shape H. subst b. in_board_cases Hc; reflexivity.
Qed.

Lemma place_cell_spec g p v c n :
  wf_board (tiles g) = true -> in_board c ->
  place_cell p v (fst c) (snd c) n g
  = if empty_at (tiles g) c then
      if n =? p then Some (inr tt, set_tiles (put (tiles g) c v) g)
      else Some (inl (n + 1), g)
    else Some (inl n, g).
Proof.
  intros H Hc. pose proof (set_cell_put (tiles g) c v H Hc) as Hput.
  destruct c as [i j]. cbn [fst snd] in *.
  unfold place_cell, bind. rewrite rd_tile by assumption.
  unfold empty_at. destruct (tile (tiles g) (i, j) =? 0); [|reflexivity].
  destruct (n =? p); [|reflexivity].
  unfold wr. now rewrite Hput.
Qed.

Lemma scan_place g p v cells :
  wf_board (tiles g) = true -> Forall in_board cells ->
  forall n, n <= p -> p - n < zeros_in (tiles g) cells ->
  exists pre c post,
    cells = pre ++ c :: post
    /\ zeros_in (tiles g) pre = p - n
    /\ empty_at (tiles g) c = true
    /\ scan_return cells (place_cell p v) n g
       = Some (inr tt, set_tiles (put (tiles g) c v) g).
Proof.
  intros H Hc.
  induction Hc as [|[i j] cells Hij Hcells IH]; intros n Hn Hz.
  - cbn in Hz. lia.
  - cbn [zeros_in] in Hz. cbn [scan_return]. unfold bind.
    rewrite (place_cell_spec g p v (i, j)) by assumption.
    destruct (empty_at (tiles g) (i, j)) eqn:He.
    + destruct (n =? p) eqn:Hnp.
      * apply Z.eqb_eq in Hnp. exists [], (i, j), cells.
        repeat split; [cbn; lia|exact He].
      * apply Z.eqb_neq in Hnp.
        destruct (IH (n + 1)) as (pre & c & post & E & Hpre & Hce & Hrun);
          [lia|lia|].
        exists ((i, j) :: pre), c, post.
        split; [now rewrite E|]. split; [|split; assumption].
        cbn [zeros_in]. rewrite He. lia.
    + destruct (IH n) as (pre & c & post & E & Hpre & Hce & Hrun);
        [lia|lia|].
      exists ((i, j) :: pre), c, post.
      split; [now rewrite E|]. split; [|split; assumption].
      cbn [zeros_in]. rewrite He. lia.
Qed.

(** The draw of the placement stays below the number of empty cells. *)
Lemma trunc_draw (q : Q) (n : Z) :
  (0 <= q)%Q -> (q < 1)%Q -> 0 < n ->
  0 <= trunc (q * inject_Z n) < n.
Proof.
  destruct q as [a d]. unfold Qle, Qlt, trunc, Qmult, inject_Z.
  cbn [Qnum Qden]. intros Ha Hd Hn.
  rewrite Pos.mul_1_r. rewrite Z.quot_div_nonneg by nia.
  split.
  - apply Z.div_pos; nia.
  - apply Z.div_lt_upper_bound; nia.
Qed.

Lemma occupied_tile v : v <> 0 -> occupied v = 1.
Proof. unfold occupied. intros H. destruct (Z.eqb_spec v 0); congruence. Qed.

Lemma count_tiles_put b c v :
  wf_board b = true -> in_board c -> tile b c = 0 -> v <> 0 ->
  count_tiles (put b c v) = count_tiles b + 1.
Proof.
  intros H Hc Ht Hv. destruct c as [i j].
  board_shape H. subst b.
  in_board_cases Hc; cbv in Ht; subst;
    cbv -[occupied Z.add]; rewrite (occupied_tile v Hv);
    change (occupied 0) with 0; lia.
Qed.

Lemma cell_put_other b c v i j :
  wf_board b = true -> in_board c -> (i, j) <> c ->
  cell (put b c v) i j = cell b i j.
Proof.
  intros H Hc Hne. destruct c as [i0 j0].
  board_shape H. subst b.
  in_board_cases Hc;
    (index_cases i; [| | | |now rewrite !cell_out_l]);
    (index_cases j; [| | | |now rewrite !cell_out_r]);
    first [reflexivity | congruence].
Qed.

(** The cells visited before a cell make up the part of the scan that
    precedes it. *)
Lemma before_in_prefix pre c post c' :
  all_cells = pre ++ c :: post -> in_board c' -> before c' c -> In c' pre.
Proof.
  intros H Hc' Hb.
  change all_cells with
    [(0,0); (0,1); (0,2); (0,3); (1,0); (1,1); (1,2); (1,3);
     (2,0); (2,1); (2,2); (2,3); (3,0); (3,1); (3,2); (3,3)] in H.
  destruct c' as [i' j']. unfold before in Hb.
  do 16 (destruct pre as [|? pre];
         [ injection H as <- _;
           in_board_cases Hc'; cbn [fst snd] in Hb;
           first [ exfalso; lia
                 | cbn; repeat (first [left; reflexivity | right]) ]
         | injection H as <- H ]).
  destruct pre; discriminate H.
Qed.

Lemma new_tile_spec random_tiles draw1 draw2 g :
  wf_board (tiles g) = true ->
  has_empty (tiles g) ->
  (0 <= draw1)%Q -> (draw1 < 1)%Q ->
  exists pre c post v,
    all_cells = pre ++ c :: post
    /\ empty_at (tiles g) c = true
    /\ (v = 2 \/ v = 4)
    /\ (random_tiles = false -> v = 2 /\ zeros_in (tiles g) pre = 0)
    /\ new_tile random_tiles draw1 draw2 g
       = Some (tt, set_tiles (put (tiles g) c v) g).
Proof.
  intros H (i & j & He) Hd0 Hd1.
  assert (Hz : 1 <= zeros_in (tiles g) all_cells).
  { apply (zeros_in_pos _ _ (i, j)).
    - apply in_board_all_cells. eapply cell_in_board, He.
    - unfold empty_at. now rewrite (tile_of_cell _ _ _ _ He). }
  unfold new_tile, bind.
  rewrite nested_for, scan_count by auto using all_cells_in_board.
  rewrite Z.add_0_l.
  set (p := if random_tiles
            then trunc (draw1 * inject_Z (zeros_in (tiles g) all_cells))
            else 0).
  set (v := if random_tiles
            then (if Qlt_le_dec draw2 double_0_9 then 2 else 4) else 2).
  assert (Hp : 0 <= p < zeros_in (tiles g) all_cells).
  { subst p. destruct random_tiles; [|lia].
    apply trunc_draw; auto. lia. }
  destruct (scan_place g p v all_cells H all_cells_in_board 0)
    as (pre & c & post & E & Hpre & Hce & Hrun); [lia|lia|].
  exists pre, c, post, v.
  split; [exact E|]. split; [exact Hce|]. split; [|split].
  - subst v. destruct random_tiles; [|now left].
    destruct (Qlt_le_dec draw2 double_0_9); [now left|now right].
  - intros ->. subst p v. split; [reflexivity|]. rewrite Hpre. lia.
  - rewrite nested_for_return, Hrun. reflexivity.
Qed.

Lemma new_tile_correct random_tiles draw1 draw2 g :
  wf_board (tiles g) = true ->
  has_empty (tiles g) ->
  (0 <= draw1)%Q -> (draw1 < 1)%Q ->
  exists i j v g',
    new_tile random_tiles draw1 draw2 g = Some (tt, g')
    /\ cell (tiles g) i j = Some 0
    /\ set_cell (tiles g) i j v = Some (tiles g')
    /\ (v = 2 \/ v = 4)
    /\ (forall i' j', (i', j') <> (i, j) ->
        cell (tiles g') i' j' = cell (tiles g) i' j')
    /\ count_tiles (tiles g') = count_tiles (tiles g) + 1
    /\ score g' = score g /\ undo g' = undo g
    /\ (random_tiles = false ->
        v = 2
        /\ forall i' j', before (i', j') (i, j) ->
                         cell (tiles g) i' j' <> Some 0).
Proof.
  intros H He Hd0 Hd1.
  destruct (new_tile_spec random_tiles draw1 draw2 g H He Hd0 Hd1)
    as (pre & [i j] & post & v & E & Hce & Hv & Hdet & Hrun).
  assert (Hc : in_board (i, j)).
  { pose proof all_cells_in_board as Hall.
    rewrite List.Forall_forall in Hall. apply Hall.
    rewrite E. apply in_or_app. right. now left. }
  assert (Ht : tile (tiles g) (i, j) = 0)
    by (now apply Z.eqb_eq in Hce).
  exists i, j, v, (set_tiles (put (tiles g) (i, j) v) g).
  split; [exact Hrun|]. cbn [tiles score undo set_tiles].
  split.
  { pose proof (cell_tile (tiles g) (i, j) H Hc) as Ec.
    cbn [fst snd] in Ec. now rewrite Ec, Ht. }
  split; [apply (set_cell_put (tiles g) (i, j) v H Hc)|].
  split; [exact Hv|].
  split; [intros i' j' Hne; now apply cell_put_other|].
  split; [apply count_tiles_put; auto; destruct Hv; lia|].
  split; [reflexivity|]. split; [reflexivity|].
  intros Hrt. destruct (Hdet Hrt) as [-> Hpre]. split; [reflexivity|].
  intros i' j' Hb Hz.
  assert (Hc' : in_board (i', j')) by (eapply cell_in_board, Hz).
  pose proof (before_in_prefix pre (i, j) post (i', j') E Hc' Hb) as Hin.
  pose proof (zeros_in_none _ _ Hpre _ Hin) as Hne.
  unfold empty_at in Hne. rewrite (tile_of_cell _ _ _ _ Hz) in Hne.
  discriminate.
Qed.

(** ** The undo stack *)

Lemma wf_stack_inv u :
  wf_stack u = true ->
  exists t0 t1 t2 t3 s0 s1 s2 s3 top size,
    u = mkStack [t0; t1; t2; t3] [s0; s1; s2; s3] top size
    /\ (top = 0 \/ top = 1 \/ top = 2 \/ top = 3)
    /\ (size = 0 \/ size = 1 \/ size = 2 \/ size = 3 \/ size = 4).
Proof.
  destruct u as [ts ss top size]. unfold wf_stack. cbn.
  intros H. repeat (apply andb_prop in H as [H ?]).
  destruct ts as [|t0 [|t1 [|t2 [|t3 [|? ?]]]]]; try discriminate H.
  destruct ss as [|s0 [|s1 [|s2 [|s3 [|? ?]]]]]; try discriminate.
  exists t0, t1, t2, t3, s0, s1, s2, s3, top, size.
  split; [reflexivity|]. unfold in_bounds, UNDO_CAPACITY in *. lia.
Qed.

Ltac stack_shape H :=
  apply wf_stack_inv in H;
  destruct H as (?t & ?t & ?t & ?t & ?s & ?s & ?s & ?s & ?top & ?size
                 & H & [-> | [-> | [-> | ->]]]
                 & [-> | [-> | [-> | [-> | ->]]]]).

Lemma push_undo_spec g :
  wf_stack (undo g) = true ->
  exists g',
    push_undo g = Some (tt, g')
    /\ wf_stack (undo g') = true
    /\ tiles g' = tiles g /\ score g' = score g
    /\ stack_entries (undo g')
       = take (Z.to_nat UNDO_CAPACITY)
              ((tiles g, score g) :: stack_entries (undo g)).
Proof.
  intros H. destruct g as [gx gy b s u]. cbn [undo tiles score] in *.
  stack_shape H; subst u; eexists; (split; [reflexivity|]);
    repeat split; reflexivity.
Qed.

Lemma take_app_take {A} (a b : list A) : forall n m,
  (n <= m)%nat -> take n (a ++ take m b) = take n (a ++ b).
Proof.
  induction a as [|x a IH]; intros n m Hnm; cbn [app].
  - rewrite take_take. f_equal. lia.
  - destruct n as [|n]; [reflexivity|]. cbn [take].
    f_equal. apply IH. lia.
Qed.

Lemma pushes_spec l : forall g,
  wf_stack (undo g) = true ->
  exists g',
    pushes l g = Some g'
    /\ wf_stack (undo g') = true
    /\ stack_entries (undo g')
       = take (Z.to_nat UNDO_CAPACITY) (rev l ++ stack_entries (undo g)).
Proof.
  induction l as [|s l IH]; intros g H.
  - exists g. repeat split; auto. cbn [rev app].
    symmetry. apply take_ge. unfold stack_entries.
    rewrite length_map, length_seq.
    destruct g as [gx gy b sc u]. cbn [undo] in *.
    stack_shape H; subst u; vm_compute; lia.
  - cbn [pushes].
    destruct (push_undo_spec (set_live s g) H)
      as (g1 & -> & H1 & _ & _ & E1).
    destruct (IH g1 H1) as (g' & Hp & H' & E').
    exists g'. repeat split; auto.
    rewrite E', E1. cbn [set_live tiles score undo rev].
    destruct s as [sb ss]. cbn [fst snd].
    rewrite <- app_assoc. cbn [app].
    now apply take_app_take.
Qed.

Lemma pop_undo_one g :
  undo_size (undo g) = 1 -> pop_undo g = Some (false, g).
Proof. intros H. unfold pop_undo. now rewrite H. Qed.

Lemma pop_undo_two g :
  wf_stack (undo g) = true ->
  undo_size (undo g) = 2 ->
  exists e_top e_prev g1,
    stack_entries (undo g) = [e_top; e_prev]
    /\ pop_undo g = Some (true, g1)
    /\ tiles g1 = fst e_prev /\ score g1 = snd e_prev
    /\ stack_entries (undo g1) = [e_prev]
    /\ pop_undo g1 = Some (false, g1).
Proof.
  intros H Hs. destruct g as [gx gy b s u]. cbn [undo] in *.
  stack_shape H; subst u; try discriminate Hs;
    do 3 eexists; repeat split; reflexivity.
Qed.

Lemma undo_stack_spec g l :
  wf_stack (undo g) = true ->
  (exists g',
     push_undo g = Some (tt, g')
     /\ wf_stack (undo g') = true
     /\ stack_entries (undo g')
        = take (Z.to_nat UNDO_CAPACITY)
               ((tiles g, score g) :: stack_entries (undo g)))
  /\ ((Z.to_nat UNDO_CAPACITY + 1 <= length l)%nat ->
      exists g',
        pushes l g = Some g'
        /\ undo_size (undo g') = UNDO_CAPACITY
        /\ stack_entries (undo g') = take (Z.to_nat UNDO_CAPACITY) (rev l))
  /\ (undo_size (undo g) = 1 -> pop_undo g = Some (false, g))
  /\ (undo_size (undo g) = 2 ->
      exists e_top e_prev g1,
        stack_entries (undo g) = [e_top; e_prev]
        /\ pop_undo g = Some (true, g1)
        /\ tiles g1 = fst e_prev /\ score g1 = snd e_prev
        /\ stack_entries (undo g1) = [e_prev]
        /\ pop_undo g1 = Some (false, g1)).
Proof.
  intros H. split; [|split; [|split]].
  - destruct (push_undo_spec g H) as (g' & Hp & Hw & _ & _ & E). eauto.
  - intros Hl. destruct (pushes_spec l g H) as (g' & Hp & Hw & E).
    exists g'. split; [exact Hp|].
    assert (E' : stack_entries (undo g')
                 = take (Z.to_nat UNDO_CAPACITY) (rev l)).
    { rewrite E. apply take_app_le. rewrite length_rev. lia. }
    split; [|exact E'].
    assert (Hlen : length (stack_entries (undo g')) = 4%nat).
    { rewrite E', length_take, length_rev.
      change (Z.to_nat UNDO_CAPACITY) with 4%nat in *. lia. }
    unfold stack_entries in Hlen. rewrite length_map, length_seq in Hlen.
    destruct g' as [gx gy b s u]. cbn [undo] in *.
    stack_shape Hw; subst u; cbn in Hlen; first [lia | reflexivity].
  - apply pop_undo_one.
  - now apply pop_undo_two.
Qed.

(** ** Saving and loading *)

Lemma byte_of_Z_of_byte z :
  0 <= z < 256 -> Z_of_byte (byte_of_Z z) = z.
Proof.
  intros Hz. unfold byte_of_Z, Z_of_byte.
  rewrite Z.mod_small by lia.
  destruct (Byte.of_N (Z.to_N z)) as [b|] eqn:E.
  - apply Byte.to_of_N in E. rewrite E. lia.
  - apply Byte.of_N_None_iff in E. lia.
Qed.

Lemma bytes_int_bytes v : in_int v = true -> bytes_int (int_bytes v) = v.
Proof.
  unfold in_int. intros Hv. unfold int_bytes, bytes_int.
  set (u := v mod 4294967296).
  assert (Hu : 0 <= u < 4294967296) by (apply Z.mod_pos_bound; lia).
  unfold byte_of_Z at 2 3 4.
  assert (B : forall w, Z_of_byte
                (match Byte.of_N (Z.to_N (w mod 256)) with
                 | Some b => b | None => Byte.x00 end) = w mod 256).
  { intros w. pose proof (Z.mod_pos_bound w 256 ltac:(lia)) as Hw.
    pose proof (byte_of_Z_of_byte (w mod 256) Hw) as E.
    unfold byte_of_Z in E. now rewrite Z.mod_mod in E by lia. }
  rewrite !B.
  pose proof (B u) as B0. fold (byte_of_Z u) in B0. rewrite B0.
  replace (u mod 256 + 256 * ((u / 256) mod 256)
           + 65536 * ((u / 65536) mod 256)
           + 16777216 * ((u / 16777216) mod 256)) with u.
  - subst u. unfold wrap.
    rewrite Z.add_mod_idemp_l by lia.
    rewrite Z.mod_small; lia.
  - rewrite (Z.mod_small (u / 16777216)) by
      (split; [apply Z.div_pos; lia|apply Z.div_lt_upper_bound; lia]).
    pose proof (Z.div_mod u 256 ltac:(lia)).
    pose proof (Z.div_mod (u / 256) 256 ltac:(lia)).
    pose proof (Z.div_mod (u / 256 / 256) 256 ltac:(lia)).
    rewrite !Z.div_div in * by lia.
    change (256 * 256) with 65536 in *.
    change (65536 * 256) with 16777216 in *. lia.
Qed.

Lemma chunks_concat {A} n (l : list (list A)) :
  Forall (fun x => length x = n) l ->
  chunks n (length l) (concat l) = l.
Proof.
  induction 1 as [|x l Hx _ IH]; [reflexivity|].
  cbn [length concat chunks]. subst n.
  now rewrite take_app_length, drop_app_length, IH.
Qed.

Lemma ints_of_bytes (ints : list Z) :
  forallb in_int ints = true ->
  map bytes_int (chunks 4 (length ints) (concat (map int_bytes ints)))
  = ints.
Proof.
  intros H. rewrite <- (length_map int_bytes ints).
  rewrite chunks_concat.
  - rewrite map_map. rewrite <- (map_id ints) at 2.
    apply map_ext_in. intros v Hv. apply bytes_int_bytes.
    rewrite forallb_forall in H. now apply H.
  - apply Forall_map. rewrite List.Forall_forall. reflexivity.
Qed.

Lemma length_ints_bytes (ints : list Z) :
  length (concat (map int_bytes ints)) = (4 * length ints)%nat.
Proof.
  induction ints as [|v ints IH]; [reflexivity|].
  cbn [map concat]. rewrite length_app, IH. cbn [int_bytes length]. lia.
Qed.

Lemma game_roundtrip g :
  valid_game g = true ->
  length (game_bytes g) = sizeof_game
  /\ game_of_bytes (game_bytes g) = g.
Proof.
  unfold valid_game. intros H.
  do 4 (apply andb_prop in H as [H ?]).
  destruct g as [gx gy b s [ts ss top size]].
  cbn [tiles undo undo_tiles undo_score] in *.
  board_shape H. subst b.
  destruct ts as [|t0 [|t1 [|t2 [|t3 [|? ?]]]]]; try discriminate.
  destruct ss as [|s0 [|s1 [|s2 [|s3 [|? ?]]]]]; try discriminate.
  match goal with
  | Hts : forallb wf_board _ = true |- _ =>
      cbn [forallb] in Hts;
      apply andb_prop in Hts as [Ht0 Hts];
      apply andb_prop in Hts as [Ht1 Hts];
      apply andb_prop in Hts as [Ht2 Hts];
      apply andb_prop in Hts as [Ht3 _]
  end.
  board_shape Ht0. board_shape Ht1. board_shape Ht2. board_shape Ht3.
  subst t0 t1 t2 t3.
  match goal with
  | Hi : forallb in_int (game_ints ?g) = true |- _ =>
      pose proof (ints_of_bytes (game_ints g) Hi) as E;
      pose proof (length_ints_bytes (game_ints g)) as L
  end.
  split; [exact L|].
  unfold game_of_bytes, game_bytes. cbv zeta.
  match type of E with
  | context [chunks 4 ?n _] =>
      let n' := eval cbv in n in change n with n' in E
  end.
  rewrite E. reflexivity.
Qed.

Lemma save_load_spec d g :
  valid_game g = true ->
  fopen_ok d = true -> fwrite_ok d = true ->
  exists d',
    save_game d g = (true, d')
    /\ savefile d' = Some (game_bytes g)
    /\ length (game_bytes g) = sizeof_game
    /\ forall live, load_game d' live = Some (true, g).
Proof.
  intros Hv Ho Hw. destruct (game_roundtrip g Hv) as [L E].
  unfold save_game. rewrite Ho, Hw. eexists. split; [reflexivity|].
  cbn [savefile]. split; [reflexivity|]. split; [exact L|].
  intros live. unfold load_game. cbn [savefile fopen_ok].
  rewrite L, Nat.leb_refl, <- L, firstn_all, E. reflexivity.
Qed.

Lemma load_failure d g :
  fopen_ok d = false \/ savefile d = None
  \/ (exists bs, savefile d = Some bs /\ (length bs < sizeof_game)%nat) ->
  load_game d g = Some (false, g).
Proof.
  unfold load_game. intros [H | [H | (bs & H & Hl)]].
  - now rewrite H.
  - rewrite H. now destruct (fopen_ok d).
  - rewrite H. destruct (fopen_ok d); [|reflexivity].
    apply Nat.leb_gt in Hl. now rewrite Hl.
Qed.

(** ** A push, said without the array *)

Lemma push_row_functional a b c d :
  push_row [a; b; c; d] = pushed_line [a; b; c; d]
  /\ forall s, row_score [a; b; c; d] s
               = fold_left int_add (line_gains [a; b; c; d]) s.
Proof.
  run_row; split;
    first [reflexivity | eqb_props; first [congruence | exfalso; lia]].
Qed.

(** A row that moved ends in an empty cell. *)
Lemma moved_frees a b c d :
  row_moved [a; b; c; d] = true ->
  exists x y z, push_row [a; b; c; d] = [x; y; z; 0].
Proof.
  run_row; intros; try discriminate;
    first [do 3 eexists; reflexivity | eqb_props; exfalso; lia].
Qed.

Lemma merge_tiles_sum l : forall p,
  doubles p = true -> forallb doubles l = true ->
  sum_list (merge_tiles p l) = p + sum_list l.
Proof.
  induction l as [|t l IH]; intros p Hp Hl; cbn [merge_tiles sum_list fold_right].
  - destruct (Z.eqb_spec p 0); cbn; lia.
  - cbn [forallb] in Hl. apply andb_prop in Hl as [Ht Hl].
    fold (sum_list l).
    destruct (Z.eqb_spec t p) as [->|Hne].
    + cbn [fold_right]. fold (sum_list (merge_tiles 0 l)).
      rewrite IH by auto. rewrite int_mul_2 by exact Hp. lia.
    + destruct (Z.eqb_spec p 0) as [->|Hp0].
      * rewrite IH by auto. lia.
      * cbn [fold_right]. fold (sum_list (merge_tiles t l)).
        rewrite IH by auto. lia.
Qed.

Lemma tiles_of_sum l : sum_list (tiles_of l) = sum_list l.
Proof.
  induction l as [|t l IH]; [reflexivity|].
  cbn [tiles_of List.filter sum_list fold_right].
  fold (tiles_of l). fold (sum_list l).
  destruct (Z.eqb_spec t 0) as [->|Hne]; cbn [negb fold_right];
    fold (sum_list (tiles_of l)); lia.
Qed.

Lemma tiles_of_doubles l :
  forallb doubles l = true -> forallb doubles (tiles_of l) = true.
Proof.
  induction l as [|t l IH]; [reflexivity|].
  cbn [forallb tiles_of List.filter]. fold (tiles_of l).
  intros H. apply andb_prop in H as [Ht Hl].
  destruct (negb (t =? 0)); cbn [forallb]; rewrite ?Ht; auto.
Qed.

Lemma pad_sum l : sum_list (pad l) = sum_list l.
Proof.
  unfold pad. generalize (Z.to_nat DIM - length l)%nat. intros n.
  induction l as [|t l IH]; cbn [app sum_list fold_right].
  - induction n as [|n IHn]; [reflexivity|]. cbn. exact IHn.
  - fold (sum_list (l ++ repeat 0 n)). fold (sum_list l). lia.
Qed.

Lemma pushed_line_sum l :
  forallb doubles l = true -> sum_list (pushed_line l) = sum_list l.
Proof.
  intros H. unfold pushed_line.
  rewrite pad_sum, merge_tiles_sum, tiles_of_sum; auto using tiles_of_doubles.
Qed.

Lemma occupied_cases v : occupied v = if v =? 0 then 0 else 1.
Proof. reflexivity. Qed.

Lemma merge_tiles_count l : forall p,
  doubles p = true -> forallb doubles l = true ->
  forallb (fun t => negb (t =? 0)) l = true ->
  count_line (merge_tiles p l) + Z.of_nat (length (merged_values p l))
  = occupied p + Z.of_nat (length l).
Proof.
  unfold count_line.
  induction l as [|t l IH]; intros p Hp Hl Hnz;
    cbn [merge_tiles merged_values].
  - unfold occupied. destruct (Z.eqb_spec p 0); cbn; [lia|].
    unfold occupied. destruct (Z.eqb_spec p 0); lia.
  - cbn [forallb] in Hl, Hnz.
    apply andb_prop in Hl as [Ht Hl]. apply andb_prop in Hnz as [Htz Hnz].
    apply negb_true_iff, Z.eqb_neq in Htz.
    destruct (Z.eqb_spec t p) as [->|Hne].
    + cbn [map sum_list fold_right length].
      fold (sum_list (map occupied (merge_tiles 0 l))).
      specialize (IH 0 eq_refl Hl Hnz). change (occupied 0) with 0 in IH.
      rewrite int_mul_2 by exact Hp.
      rewrite (occupied_tile (2 * p)) by lia.
      rewrite (occupied_tile p) by lia. lia.
    + destruct (Z.eqb_spec p 0) as [->|Hp0].
      * specialize (IH t Ht Hl Hnz). rewrite (occupied_tile t) in IH by lia.
        change (occupied 0) with 0. cbn [length]. lia.
      * cbn [map sum_list fold_right length].
        fold (sum_list (map occupied (merge_tiles t l))).
        specialize (IH t Ht Hl Hnz). rewrite (occupied_tile t) in IH by lia.
        lia.
Qed.

Lemma tiles_of_nonzero l :
  forallb (fun t => negb (t =? 0)) (tiles_of l) = true.
Proof.
  induction l as [|t l IH]; [reflexivity|].
  cbn [tiles_of List.filter]. fold (tiles_of l).
  destruct (negb (t =? 0)) eqn:E; cbn [forallb]; rewrite ?E; auto.
Qed.

Lemma tiles_of_count l : Z.of_nat (length (tiles_of l)) = count_line l.
Proof.
  unfold count_line.
  induction l as [|t l IH]; [reflexivity|].
  cbn [tiles_of List.filter map sum_list fold_right].
  fold (tiles_of l). fold (sum_list (map occupied l)).
  unfold occupied at 1.
  destruct (t =? 0); cbn [negb length]; lia.
Qed.

Lemma pad_count l : count_line (pad l) = count_line l.
Proof.
  unfold pad, count_line. generalize (Z.to_nat DIM - length l)%nat. intros n.
  induction l as [|t l IH]; cbn [app map sum_list fold_right].
  - induction n as [|n IHn]; [reflexivity|]. cbn. exact IHn.
  - fold (sum_list (map occupied (l ++ repeat 0 n))).
    fold (sum_list (map occupied l)). lia.
Qed.

Lemma pushed_line_count l :
  forallb doubles l = true ->
  count_line (pushed_line l) + Z.of_nat (length (line_gains l))
  = count_line l.
Proof.
  intros H. unfold pushed_line, line_gains.
  rewrite pad_count, merge_tiles_count
    by auto using tiles_of_doubles, tiles_of_nonzero.
  change (occupied 0) with 0. rewrite tiles_of_count. lia.
Qed.

(** Powers of two *)

Lemma power_tile_weaken n v :
  power_tile n v = true -> power_tile (S n) v = true.
Proof.
  unfold power_tile. intros H. apply orb_prop in H as [H|H].
  - now rewrite H.
  - apply orb_true_intro. right.
    apply existsb_exists in H as (k & Hk & E).
    apply existsb_exists. exists k. split; [|exact E].
    apply in_seq in Hk. apply in_seq. lia.
Qed.

Lemma power_tile_double n v :
  (n <= 29)%nat -> power_tile n v = true ->
  power_tile (S n) (int_mul v 2) = true.
Proof.
  unfold power_tile. intros Hn H. apply orb_prop in H as [H|H].
  - apply Z.eqb_eq in H. now subst v.
  - apply orb_true_intro. right.
    apply existsb_exists in H as (k & Hk & E).
    apply Z.eqb_eq in E. apply in_seq in Hk.
    apply existsb_exists. exists (S k). split; [apply in_seq; lia|].
    apply Z.eqb_eq. subst v. unfold int_mul.
    rewrite Nat2Z.inj_succ, Z.pow_succ_r by lia.
    assert (2 ^ Z.of_nat k <= 2 ^ 29)
      by (apply Z.pow_le_mono_r; lia).
    change (2 ^ 29) with 536870912 in *.
    rewrite wrap_small; [lia|]. unfold int_range. lia.
Qed.

Lemma merge_tiles_power n l : forall p,
  (n <= 29)%nat -> power_tile n p = true ->
  forallb (power_tile n) l = true ->
  forallb (power_tile (S n)) (merge_tiles p l) = true.
Proof.
  induction l as [|t l IH]; intros p Hn Hp Hl; cbn [merge_tiles].
  - destruct (p =? 0); cbn [forallb]; [reflexivity|].
    now rewrite power_tile_weaken.
  - cbn [forallb] in Hl. apply andb_prop in Hl as [Ht Hl].
    destruct (t =? p).
    + cbn [forallb]. rewrite power_tile_double by assumption.
      now apply IH.
    + destruct (p =? 0); [now apply IH|].
      cbn [forallb]. rewrite power_tile_weaken by assumption.
      now apply IH.
Qed.

Lemma tiles_of_forallb (P : Z -> bool) l :
  forallb P l = true -> forallb P (tiles_of l) = true.
Proof.
  induction l as [|t l IH]; [reflexivity|].
  cbn [forallb tiles_of List.filter]. fold (tiles_of l).
  intros H. apply andb_prop in H as [Ht Hl].
  destruct (negb (t =? 0)); cbn [forallb]; rewrite ?Ht; auto.
Qed.

Lemma pad_forallb (P : Z -> bool) l :
  P 0 = true -> forallb P l = true -> forallb P (pad l) = true.
Proof.
  intros H0 Hl. unfold pad. rewrite forallb_app, Hl. cbn [andb].
  generalize (Z.to_nat DIM - length l)%nat. intros n.
  induction n as [|n IHn]; [reflexivity|]. cbn. now rewrite H0.
Qed.

Lemma pushed_line_power n l :
  (n <= 29)%nat -> forallb (power_tile n) l = true ->
  forallb (power_tile (S n)) (pushed_line l) = true.
Proof.
  intros Hn Hl. unfold pushed_line.
  apply pad_forallb; [reflexivity|].
  apply merge_tiles_power; auto using tiles_of_forallb.
Qed.

(** ** Whole boards *)

Lemma map_push_row b :
  wf_board b = true ->
  map push_row b = map pushed_line b
  /\ forall s, board_score b s = fold_left int_add (concat (map line_gains b)) s.
Proof.
  intros H. board_shape H. subst b. cbn [map].
  destruct (push_row_functional a a0 a1 a2) as [-> Ea].
  destruct (push_row_functional b0 b1 b2 b3) as [-> Eb].
  destruct (push_row_functional c c0 c1 c2) as [-> Ec].
  destruct (push_row_functional d d0 d1 d2) as [-> Ed].
  split; [reflexivity|]. intros s.
  unfold board_score. cbn [fold_left concat].
  rewrite Ea, Eb, Ec, Ed, app_nil_r, !fold_left_app. reflexivity.
Qed.

Lemma push_functional_spec d g :
  wf_board (tiles g) = true ->
  exists c,
    push d g
    = Some (c, mkGame (x g) (y g) (pushed_board d (tiles g))
                      (fold_left int_add (board_gains d (tiles g)) (score g))
                      (undo g)).
Proof.
  intros H. rewrite push_spec by exact H.
  destruct (map_push_row (view d (tiles g))) as [E1 E2];
    [now apply wf_view|].
  eexists. unfold pushed_board, board_gains. rewrite E1, E2. reflexivity.
Qed.

Lemma wf_pushed_board d b :
  wf_board b = true -> wf_board (pushed_board d b) = true.
Proof.
  intros H. unfold pushed_board.
  destruct (map_push_row (view d b)) as [<- _]; [now apply wf_view|].
  now apply wf_unview, wf_push_rows, wf_view.
Qed.

Section Cells.
Variable P : Z -> bool.

Lemma forallb_view d b :
  wf_board b = true ->
  forallb (forallb P) (view d b) = forallb (forallb P) b.
Proof.
  intros H. board_shape H. subst b.
  destruct d; cbv [view mirror transpose column forallb map rev app seq
                   Z.to_nat DIM Pos.to_nat Pos.iter_op Nat.add
                   lookup list_lookup default from_option id];
    repeat match goal with
           | |- context [P ?v] => generalize (P v); intro
           end; btauto.
Qed.

Lemma forallb_unview d b :
  wf_board b = true ->
  forallb (forallb P) (unview d b) = forallb (forallb P) b.
Proof.
  intros H. board_shape H. subst b.
  destruct d; cbv [unview mirror transpose column forallb map rev app seq
                   Z.to_nat DIM Pos.to_nat Pos.iter_op Nat.add
                   lookup list_lookup default from_option id];
    repeat match goal with
           | |- context [P ?v] => generalize (P v); intro
           end; btauto.
Qed.
End Cells.

Lemma sum_tiles_view d b :
  wf_board b = true -> sum_tiles (view d b) = sum_tiles b.
Proof.
  intros H. board_shape H. subst b.
  destruct d; cbv -[Z.add]; lia.
Qed.

Lemma sum_tiles_unview d b :
  wf_board b = true -> sum_tiles (unview d b) = sum_tiles b.
Proof.
  intros H. board_shape H. subst b.
  destruct d; cbv -[Z.add]; lia.
Qed.

Lemma count_tiles_view d b :
  wf_board b = true -> count_tiles (view d b) = count_tiles b.
Proof.
  intros H. board_shape H. subst b.
  destruct d; cbv -[Z.add occupied]; lia.
Qed.

Lemma count_tiles_unview d b :
  wf_board b = true -> count_tiles (unview d b) = count_tiles b.
Proof.
  intros H. board_shape H. subst b.
  destruct d; cbv -[Z.add occupied]; lia.
Qed.

Lemma sum_tiles_rows (b : list (list Z)) :
  sum_tiles b = sum_list (map sum_list b).
Proof.
  unfold sum_tiles. induction b as [|r b IH]; [reflexivity|].
  cbn [concat map sum_list fold_right]. fold (sum_list (map sum_list b)).
  rewrite <- IH. clear IH.
  induction r as [|t r IHr]; [reflexivity|].
  cbn [app fold_right sum_list]. fold (sum_list r). unfold sum_list in IHr.
  rewrite IHr. unfold sum_list. lia.
Qed.

Lemma count_tiles_rows (b : list (list Z)) :
  count_tiles b = sum_list (map count_line b).
Proof.
  unfold count_tiles. induction b as [|r b IH]; [reflexivity|].
  cbn [concat map sum_list fold_right]. fold (sum_list (map count_line b)).
  rewrite <- IH, map_app. clear IH. unfold count_line.
  induction r as [|t r IHr]; [reflexivity|].
  cbn [map app fold_right sum_list].
  fold (sum_list (map occupied r)). unfold sum_list in *.
  rewrite IHr. lia.
Qed.

Lemma pushed_board_sum d b :
  wf_board b = true -> forallb (forallb doubles) b = true ->
  sum_tiles (pushed_board d b) = sum_tiles b.
Proof.
  intros H Hd. unfold pushed_board.
  assert (Hv : wf_board (view d b) = true) by now apply wf_view.
  assert (Hdv : forallb (forallb doubles) (view d b) = true)
    by (now rewrite forallb_view).
  rewrite sum_tiles_unview.
  2:{ destruct (map_push_row _ Hv) as [<- _]. now apply wf_push_rows. }
  rewrite <- (sum_tiles_view d b H), !sum_tiles_rows, map_map.
  f_equal. apply map_ext_in. intros r Hr. apply pushed_line_sum.
  rewrite forallb_forall in Hdv. now apply Hdv.
Qed.

Lemma sum_list_app l1 l2 : sum_list (l1 ++ l2) = sum_list l1 + sum_list l2.
Proof.
  induction l1 as [|t l1 IH]; [reflexivity|].
  cbn [app sum_list fold_right]. fold (sum_list (l1 ++ l2)).
  fold (sum_list l1). lia.
Qed.

Lemma pushed_board_count d b :
  wf_board b = true -> forallb (forallb doubles) b = true ->
  count_tiles (pushed_board d b) + Z.of_nat (length (board_gains d b))
  = count_tiles b.
Proof.
  intros H Hd. unfold pushed_board, board_gains.
  assert (Hv : wf_board (view d b) = true) by now apply wf_view.
  assert (Hdv : forallb (forallb doubles) (view d b) = true)
    by (now rewrite forallb_view).
  rewrite count_tiles_unview.
  2:{ destruct (map_push_row _ Hv) as [<- _]. now apply wf_push_rows. }
  rewrite <- (count_tiles_view d b H), !count_tiles_rows, map_map.
  generalize dependent (view d b). clear. intros v _ Hdv.
  induction v as [|r v IH]; [reflexivity|].
  cbn [forallb] in Hdv. apply andb_prop in Hdv as [Hr Hdv].
  cbn [map concat sum_list fold_right].
  fold (sum_list (map (fun l => count_line (pushed_line l)) v)).
  fold (sum_list (map count_line v)).
  rewrite length_app, Nat2Z.inj_add.
  pose proof (pushed_line_count r Hr). specialize (IH Hdv). lia.
Qed.

Lemma pushed_board_power n d b :
  (n <= 29)%nat -> wf_board b = true ->
  forallb (forallb (power_tile n)) b = true ->
  forallb (forallb (power_tile (S n))) (pushed_board d b) = true.
Proof.
  intros Hn H Hp. unfold pushed_board.
  assert (Hv : wf_board (view d b) = true) by now apply wf_view.
  rewrite forallb_unview.
  2:{ destruct (map_push_row _ Hv) as [<- _]. now apply wf_push_rows. }
  rewrite <- (forallb_view _ d b H) in Hp.
  rewrite forallb_forall in Hp. apply forallb_forall.
  intros r' Hr'. apply in_map_iff in Hr' as (r & <- & Hr).
  apply pushed_line_power; auto.
Qed.

(** ** A push that moved leaves room for a new tile *)

Lemma has_empty_unview d b :
  wf_board b = true -> has_empty b -> has_empty (unview d b).
Proof.
  intros H (i & j & E). destruct d; cbn [unview].
  - now exists i, j.
  - exists i, (DIM - 1 - j). now rewrite cell_mirror.
  - exists j, i. now rewrite cell_transpose.
  - exists (DIM - 1 - j), i.
    rewrite cell_transpose by now apply wf_mirror.
    now rewrite cell_mirror.
Qed.

Lemma moved_has_empty d g g1 :
  wf_board (tiles g) = true ->
  push d g = Some (true, g1) -> has_empty (tiles g1).
Proof.
  intros H Hp. rewrite push_spec in Hp by exact H.
  injection Hp as Hm <-. cbn [tiles].
  assert (Hv : wf_board (view d (tiles g)) = true) by now apply wf_view.
  apply has_empty_unview; [now apply wf_push_rows|].
  board_shape Hv. rewrite Hv in *. unfold board_moved in Hm.
  cbn [existsb map] in *. rewrite orb_false_r in Hm.
  apply orb_prop in Hm as [Hm|Hm];
    [|apply orb_prop in Hm as [Hm|Hm];
      [|apply orb_prop in Hm as [Hm|Hm]]];
    apply moved_frees in Hm as (x & y & z & ->).
  - now exists 0, 3.
  - now exists 1, 3.
  - now exists 2, 3.
  - now exists 3, 3.
Qed.

(** ** [new_tile] on a full board *)

Lemma scan_place_full g p v cells :
  wf_board (tiles g) = true -> Forall in_board cells ->
  zeros_in (tiles g) cells = 0 ->
  forall n, scan_return cells (place_cell p v) n g = Some (inl n, g).
Proof.
  intros H Hc. induction Hc as [|[i j] cells Hij _ IH]; intros Hz n.
  - reflexivity.
  - cbn [zeros_in] in Hz. pose proof (zeros_in_nonneg (tiles g) cells).
    cbn [scan_return]. unfold bind.
    rewrite (place_cell_spec g p v (i, j)) by assumption.
    destruct (empty_at (tiles g) (i, j)); [lia|].
    apply IH. lia.
Qed.

Lemma zeros_in_full b cells :
  wf_board b = true -> Forall in_board cells -> ~ has_empty b ->
  zeros_in b cells = 0.
Proof.
  intros H Hc Hne. induction Hc as [|c cells Hin _ IH]; [reflexivity|].
  cbn [zeros_in]. rewrite IH.
  destruct (empty_at b c) eqn:E; [|reflexivity].
  exfalso. apply Hne. exists (fst c), (snd c).
  rewrite (cell_tile b c H Hin). f_equal. now apply Z.eqb_eq.
Qed.

Lemma new_tile_full random_tiles draw1 draw2 g :
  wf_board (tiles g) = true -> ~ has_empty (tiles g) ->
  new_tile random_tiles draw1 draw2 g = Some (tt, g).
Proof.
  intros H Hne. unfold new_tile, bind.
  rewrite nested_for, scan_count by auto using all_cells_in_board.
  rewrite nested_for_return.
  rewrite scan_place_full; auto using all_cells_in_board, zeros_in_full.
Qed.

(** ** No move available, no push that moves *)

Lemma unmoved_char a b c d :
  row_moved [a; b; c; d] = false ->
  compact [a; b; c; d] = true /\ adjacent_equal [a; b; c; d] = false.
Proof.
  run_row; intros; try discriminate; split;
    first [reflexivity | eqb_props; exfalso; lia].
Qed.

Lemma line_idle p q r s :
  p <> 0 -> q <> 0 -> r <> 0 -> s <> 0 ->
  q <> p -> r <> q -> s <> r ->
  row_moved [p; q; r; s] = false.
Proof.
  intros Hp Hq Hr Hs Hqp Hrq Hsr.
  apply Z.eqb_neq in Hp, Hq, Hr, Hs, Hqp, Hrq, Hsr.
  rewrite compact_moved; cbn [compact adjacent_equal];
    now rewrite ?Hp, ?Hq, ?Hr, ?Hs, ?Hqp, ?Hrq, ?Hsr.
Qed.

Lemma line_unmoved p q r s :
  row_moved [p; q; r; s] = false ->
  ((p = 0 -> q = 0) /\ (q = 0 -> r = 0) /\ (r = 0 -> s = 0))
  /\ (p <> 0 -> q <> p) /\ (q <> 0 -> r <> q) /\ (r <> 0 -> s <> r).
Proof.
  intros H. destruct (unmoved_char p q r s H) as [Hc Ha].
  cbn [compact adjacent_equal forallb] in Hc, Ha.
  destruct (Z.eqb_spec p 0), (Z.eqb_spec q 0), (Z.eqb_spec r 0),
    (Z.eqb_spec s 0), (Z.eqb_spec q p), (Z.eqb_spec r q), (Z.eqb_spec s r);
    cbn in Hc, Ha; try discriminate; repeat split; intros; congruence.
Qed.

Lemma idle_pushes b :
  wf_board b = true ->
  existsb (can_move_at b) all_cells = false ->
  forall d, board_moved (view d b) = false.
Proof.
  intros H Hm. board_shape H. subst b.
  cbv -[Z.eqb] in Hm.
  repeat match type of Hm with
         | context [?u =? ?v] =>
             destruct (Z.eqb_spec u v); [discriminate Hm|]
         end.
  clear Hm.
  intros dir; destruct dir;
    cbv [view mirror transpose column map rev app seq
         Z.to_nat DIM Pos.to_nat Pos.iter_op Nat.add
         lookup list_lookup default from_option id];
    unfold board_moved; cbn [existsb];
    rewrite !line_idle by congruence; reflexivity.
Qed.

(** From one empty cell to its neighbours in the packed lines. *)
Ltac spread_zero :=
  repeat match goal with
         | H : ?u = 0 -> ?w = 0, H' : ?u = 0 |- _ =>
             lazymatch goal with
             | _ : w = 0 |- _ => fail
             | _ => pose proof (H H')
             end
         end.

Lemma busy_pushes b :
  wf_board b = true -> has_tile b ->
  (forall d, board_moved (view d b) = false) ->
  existsb (can_move_at b) all_cells = false.
Proof.
  intros H (i & j & v & Hc & Hv) Hm.
  pose proof (Hm Left) as HL. pose proof (Hm Right) as HR.
  pose proof (Hm Up) as HU. pose proof (Hm Down) as HD. clear Hm.
  apply wf_board_inv in H.
  destruct H as (a0 & a1 & a2 & a3 & b0 & b1 & b2 & b3
                 & c0 & c1 & c2 & c3 & d0 & d1 & d2 & d3 & ->).
  cbv [view mirror transpose column map rev app seq
       Z.to_nat DIM Pos.to_nat Pos.iter_op Nat.add
       lookup list_lookup default from_option id] in HL, HR, HU, HD.
  unfold board_moved in HL, HR, HU, HD. cbn [existsb] in HL, HR, HU, HD.
  repeat match goal with
         | H : _ || _ = false |- _ => apply orb_false_elim in H as [? ?]
         end.
  repeat match goal with
         | H : row_moved _ = false |- _ =>
             apply line_unmoved in H;
             destruct H as ((? & ? & ?) & ? & ? & ?)
         end.
  assert (Hall : a0 <> 0 /\ a1 <> 0 /\ a2 <> 0 /\ a3 <> 0
                 /\ b0 <> 0 /\ b1 <> 0 /\ b2 <> 0 /\ b3 <> 0
                 /\ c0 <> 0 /\ c1 <> 0 /\ c2 <> 0 /\ c3 <> 0
                 /\ d0 <> 0 /\ d1 <> 0 /\ d2 <> 0 /\ d3 <> 0).
  { assert (Hi := cell_in_board _ _ _ _ Hc).
    in_board_cases Hi; cbv in Hc; injection Hc as ->;
      repeat split; intro; spread_zero; contradiction. }
  destruct Hall as (? & ? & ? & ? & ? & ? & ? & ? & ? & ? & ? & ?
                    & ? & ? & ? & ?).
  cbv -[Z.eqb].
  repeat match goal with
         | |- context [?u =? ?w] =>
             replace (u =? w) with false
               by (symmetry; apply Z.eqb_neq; auto)
         end.
  reflexivity.
Qed.

(** ** The undo stack in play *)

Lemma push_undo_frame g g1 :
  push_undo g = Some (tt, g1) ->
  x g1 = x g /\ y g1 = y g /\ tiles g1 = tiles g /\ score g1 = score g.
Proof.
  unfold push_undo.
  destruct (set_slot (undo_tiles (undo g)) _ _); [|discriminate].
  destruct (set_slot (undo_score (undo g)) _ _); [|discriminate].
  intros [= <-]. repeat split.
Qed.

Lemma push_in_play g :
  wf_board (tiles g) = true ->
  wf_stack (undo g) = true ->
  Forall (fun s : snapshot => wf_board (fst s) = true)
         (stack_entries (undo g)) ->
  exists g1,
    push_undo g = Some (tt, g1)
    /\ in_play g1
    /\ x g1 = x g /\ y g1 = y g /\ tiles g1 = tiles g /\ score g1 = score g
    /\ stack_entries (undo g1)
       = (tiles g, score g) :: take 3 (stack_entries (undo g)).
Proof.
  intros Hb Hs Hall.
  destruct (push_undo_spec g Hs) as (g1 & Hp & Hs1 & Ht & Hsc & E).
  destruct (push_undo_frame g g1 Hp) as (Hx & Hy & _ & _).
  exists g1. split; [exact Hp|].
  change (take (Z.to_nat UNDO_CAPACITY) ((tiles g, score g)
                                           :: stack_entries (undo g)))
    with ((tiles g, score g) :: take 3 (stack_entries (undo g))) in E.
  repeat split; try tauto; try assumption.
  - now rewrite Ht.
  - exists (take 3 (stack_entries (undo g))). rewrite Ht, Hsc.
    split; [exact E|]. now apply Forall_take.
Qed.


Lemma three_undos g g1 g2 g3 :
  wf_stack (undo g) = true ->
  pop_undo g = Some (true, g1) ->
  pop_undo g1 = Some (true, g2) ->
  pop_undo g2 = Some (true, g3) ->
  pop_undo g3 = Some (false, g3).
Proof.
  intros Hs H1 H2 H3.
  destruct g as [gx gy b s u]. cbn [undo] in *.
  stack_shape Hs; subst u;
    cbv in H1; try discriminate H1; injection H1 as <-;
    cbv in H2; try discriminate H2; injection H2 as <-;
    cbv in H3; try discriminate H3; injection H3 as <-;
    reflexivity.
Qed.

(** ** The main program *)

Lemma redraw_all_spec w g :
  wf_board (tiles g) = true -> redraw_all w g = Some (tt, with_corner w g).
Proof.
  intros H. unfold redraw_all, bind, draw_grid.
  fold (with_corner w g).
  now rewrite (move_available_spec (with_corner w g)).
Qed.


Lemma wf_blank : wf_board blank_tiles = true.
Proof. reflexivity. Qed.

Lemma new_game_spec rt d1 d2 w g :
  length (undo_tiles (undo g)) = Z.to_nat UNDO_CAPACITY ->
  length (undo_score (undo g)) = Z.to_nat UNDO_CAPACITY ->
  (0 <= d1)%Q -> (d1 < 1)%Q ->
  exists i j v g',
    new_game rt d1 d2 w g = Some (tt, g')
    /\ set_cell blank_tiles i j v = Some (tiles g')
    /\ (v = 2 \/ v = 4)
    /\ (rt = false -> i = 0 /\ j = 0 /\ v = 2)
    /\ count_tiles (tiles g') = 1
    /\ score g' = 0
    /\ stack_entries (undo g') = [(tiles g', 0)]
    /\ in_play g'
    /\ pop_undo g' = Some (false, g').
Proof.
  intros Hlt Hls Hd0 Hd1.
  set (g0 := mkGame (x g) (y g) blank_tiles 0
               (mkStack (undo_tiles (undo g)) (undo_score (undo g)) 0 0)).
  assert (Hs0 : wf_stack (undo g0) = true).
  { unfold wf_stack. cbn. now rewrite Hlt, Hls. }
  assert (He : has_empty (tiles g0)) by (exists 0, 0; reflexivity).
  destruct (new_tile_correct rt d1 d2 g0 wf_blank He Hd0 Hd1)
    as (i & j & v & g1 & Hn & Hc & Hset & Hv & _ & Hcount & Hsc & Hu & Hdet).
  assert (Hb1 : wf_board (tiles g1) = true)
    by (eapply wf_set_cell; [exact wf_blank|exact Hset]).
  destruct (push_in_play g1 Hb1) as (g2 & Hp & Hplay & _ & _ & Ht2 & Hs2 & E).
  { now rewrite Hu. }
  { rewrite Hu. constructor. }
  exists i, j, v, (with_corner w g2).
  unfold new_game, bind. fold g0. rewrite Hn, Hp.
  rewrite redraw_all_spec by (now rewrite Ht2).
  cbn [with_corner tiles score undo].
  rewrite Ht2, Hs2, Hsc. cbn [score g0].
  split; [reflexivity|]. split; [exact Hset|]. split; [exact Hv|].
  split.
  { intros Hrt. destruct (Hdet Hrt) as [-> Hfirst]. 
    assert (Hij : in_board (i, j)) by (eapply cell_in_board, Hc).
    destruct (Z.eq_dec i 0) as [->|Hi0], (Z.eq_dec j 0) as [->|Hj0]; auto;
      exfalso; apply (Hfirst 0 0); try reflexivity;
      destruct Hij as [Hi Hj]; cbn [fst snd] in *;
      unfold before, in_bounds, DIM in *; cbn [fst snd]; lia. }
  split; [rewrite Hcount; reflexivity|].
  split; [reflexivity|].
  assert (E2 : stack_entries (undo g2) = [(tiles g1, 0)]).
  { rewrite E, Hsc, Hu. reflexivity. }
  split; [exact E2|].
  split; [exact Hplay|].
  assert (Hsize : undo_size (undo g2) = 1).
  { apply (f_equal (@length _)) in E2. unfold stack_entries in E2.
    rewrite length_map, length_seq in E2. cbn in E2.
    destruct Hplay as (_ & Hw & _). unfold wf_stack in Hw.
    repeat (apply andb_prop in Hw as [Hw ?]). lia. }
  apply pop_undo_one. exact Hsize.
Qed.

Lemma push_keeps d g c g1 :
  wf_board (tiles g) = true ->
  push d g = Some (c, g1) ->
  wf_board (tiles g1) = true
  /\ x g1 = x g /\ y g1 = y g /\ undo g1 = undo g
  /\ (c = false -> g1 = g).
Proof.
  intros H Hp. rewrite push_spec in Hp by exact H.
  injection Hp as <- <-. cbn [tiles x y undo].
  assert (Hv : wf_board (view d (tiles g)) = true) by now apply wf_view.
  split; [now apply wf_unview, wf_push_rows|].
  repeat split.
  intros Hm. destruct (board_unmoved _ Hv) as [[U1 _] U3].
  rewrite (U1 Hm), (U3 Hm), unview_view by exact H.
  now destruct g.
Qed.






Lemma push_total d g :
  wf_board (tiles g) = true -> exists c g1, push d g = Some (c, g1).
Proof. intros H. rewrite push_spec by exact H. eauto. Qed.



(** ** The colour and the place of a number *)

Lemma log2_half t : 2 <= t -> Z.log2 t = Z.succ (Z.log2 (t / 2)).
Proof.
  intros Ht.
  pose proof (Z.div_mod t 2 ltac:(lia)) as Hdm.
  pose proof (Z.mod_pos_bound t 2 ltac:(lia)) as Hm.
  remember (t / 2) as h eqn:Hh.
  assert (0 < h) by lia.
  assert (t mod 2 = 0 \/ t mod 2 = 1) as [Hz|Hz] by lia.
  - replace t with (2 * h) by lia. now apply Z.log2_double.
  - replace t with (2 * h + 1) by lia. apply Z.log2_succ_double. lia.
Qed.

Lemma colour_loop_log2 fuel : forall t c,
  0 < t -> Z.log2 t < Z.of_nat fuel ->
  0 <= c -> c + Z.log2 t < 2147483648 ->
  colour_loop fuel t c = Some (c + Z.log2 t).
Proof.
  induction fuel as [|fuel IH]; intros t c Ht Hf Hc Hr.
  - pose proof (Z.log2_nonneg t). lia.
  - cbn [colour_loop]. rewrite Z.shiftr_div_pow2 by lia.
    change (2 ^ 1) with 2.
    destruct (Z.eqb_spec (t / 2) 0) as [E|E]; cbn [negb].
    + assert (t = 1) by (pose proof (Z.div_mod t 2 ltac:(lia));
                         pose proof (Z.mod_pos_bound t 2 ltac:(lia)); lia).
      subst t. cbn. f_equal. lia.
    + assert (Ht2 : 2 <= t).
      { destruct (Z.eq_dec t 1) as [->|]; [now cbn in E|lia]. }
      assert (Hl : Z.log2 t = Z.succ (Z.log2 (t / 2)))
        by (apply log2_half; lia).
      pose proof (Z.log2_nonneg (t / 2)).
      rewrite IH.
      * unfold int_add. rewrite wrap_small by (unfold int_range; lia).
        f_equal. lia.
      * apply Z.div_str_pos. lia.
      * lia.
      * unfold int_add. rewrite wrap_small by (unfold int_range; lia). lia.
      * unfold int_add. rewrite wrap_small by (unfold int_range; lia). lia.
Qed.

Lemma colour_of_log2 fuel t :
  0 < t < 2147483648 -> (31 <= fuel)%nat ->
  colour_of fuel t = Some (Z.log2 t).
Proof.
  intros Ht Hf. unfold colour_of.
  destruct (Z.eqb_spec t 0); [lia|]. cbn [negb].
  assert (Z.log2 t < 31).
  { apply Z.log2_lt_pow2; lia. }
  rewrite colour_loop_log2; try lia. reflexivity.
Qed.



Lemma pushed_board_compact d b :
  wf_board b = true -> forallb (forallb doubles) b = true ->
  forallb compact (view d (pushed_board d b)) = true.
Proof.
  intros H Hd. unfold pushed_board.
  assert (Hv : wf_board (view d b) = true) by now apply wf_view.
  assert (Hdv : forallb (forallb doubles) (view d b) = true)
    by (now rewrite forallb_view).
  destruct (map_push_row _ Hv) as [<- _].
  rewrite view_unview by now apply wf_push_rows.
  board_shape Hv. rewrite Hv in *. cbn [forallb map] in *.
  repeat match goal with
         | H : _ && _ = true |- _ => apply andb_prop in H as [? ?]
         end.
  now rewrite !push_row_compact by assumption.
Qed.

Lemma load_ignores_tail d g extra live :
  valid_game g = true -> fopen_ok d = true ->
  savefile d = Some (game_bytes g ++ extra) ->
  load_game d live = Some (true, g).
Proof.
  intros Hv Ho Hf. destruct (game_roundtrip g Hv) as [L E].
  unfold load_game. rewrite Ho, Hf, length_app.
  replace (sizeof_game <=? length (game_bytes g) + length extra)%nat
    with true by (symmetry; apply Nat.leb_le; lia).
  rewrite <- L, take_app_length, E. reflexivity.
Qed.

Lemma stuck_spec g :
  wf_board (tiles g) = true ->
  (move_available g = Some (false, g) ->
   forall d, push d g = Some (false, g))
  /\ (has_tile (tiles g) ->
      (forall d, exists g', push d g = Some (false, g')) ->
      move_available g = Some (false, g)).
Proof.
  intros H. split.
  - intros Hm d. rewrite move_available_spec in Hm by exact H.
    injection Hm as Hm.
    pose proof (idle_pushes (tiles g) H Hm d) as Hd.
    destruct (push_total d g H) as (c & g1 & Hp).
    pose proof Hp as Hp'. rewrite push_spec in Hp' by exact H.
    injection Hp' as Hc _. rewrite Hd in Hc. subst c.
    destruct (push_keeps d g false g1 H Hp) as (_ & _ & _ & _ & Hg).
    now rewrite <- (Hg eq_refl) at 2.
  - intros Ht Hall. rewrite move_available_spec by exact H.
    rewrite busy_pushes; auto.
    intros d. destruct (Hall d) as (g' & Hp).
    rewrite push_spec in Hp by exact H. now injection Hp as -> _.
Qed.


Lemma full_stack_undos g :
  wf_stack (undo g) = true ->
  undo_size (undo g) = UNDO_CAPACITY ->
  exists g1 g2 g3,
    pop_undo g = Some (true, g1)
    /\ pop_undo g1 = Some (true, g2)
    /\ pop_undo g2 = Some (true, g3)
    /\ pop_undo g3 = Some (false, g3).
Proof.
  intros Hs Hn. destruct g as [gx gy b s u]. cbn [undo] in *.
  stack_shape Hs; subst u; try discriminate Hn;
    do 3 eexists; repeat split; reflexivity.
Qed.


Lemma load_pass_fails inp t dk g :
  wf_board (tiles g) = true ->
  new_tile_needed t = false ->
  pressed inp = Key_L ->
  fopen_ok dk = false \/ savefile dk = None
  \/ (exists bs, savefile dk = Some bs /\ (length bs < sizeof_game)%nat) ->
  exists t', loop_body inp (t, dk) g = Some ((t', dk), g).
Proof.
  intros Hb Hn Hk Hfail. eexists.
  unfold loop_body. rewrite Hk. unfold bind, ret.
  rewrite (load_failure dk g Hfail). cbn [negb]. rewrite Hn.
  rewrite move_available_spec by exact Hb. reflexivity.
Qed.

(** * The claims *)

(** C1. [left()] works on each row on its own: the board after the call
    is the board before it with every row pushed, and the score after it
    is the score before it with the gain of every row added.  A row
    [0,2,0,2] becomes [4,0,0,0] and adds 4; a row [4,0,4,4] becomes
    [8,4,0,0] and adds 8; a row [2,2,2,2] becomes [4,4,0,0], not
    [8,0,0,0], and adds 8; a row [2,4,4,2] becomes [2,8,2,0] and adds 8. *)
Theorem left_rows g :
  wf_board (tiles g) = true ->
  (exists c g',
     left g = Some (c, g')
     /\ tiles g' = map push_row (tiles g)
     /\ score g' = board_score (tiles g) (score g))
  /\ (push_row [0; 2; 0; 2] = [4; 0; 0; 0]
      /\ forall s, row_score [0; 2; 0; 2] s = wrap (s + 4))
  /\ (push_row [4; 0; 4; 4] = [8; 4; 0; 0]
      /\ forall s, row_score [4; 0; 4; 4] s = wrap (s + 8))
  /\ (push_row [2; 2; 2; 2] = [4; 4; 0; 0]
      /\ push_row [2; 2; 2; 2] <> [8; 0; 0; 0]
      /\ forall s, row_score [2; 2; 2; 2] s = wrap (s + 8))
  /\ (push_row [2; 4; 4; 2] = [2; 8; 2; 0]
      /\ forall s, row_score [2; 4; 4; 2] s = wrap (s + 8)).
Proof.
  intros Hwf. split.
  { do 2 eexists. split; [apply left_spec, Hwf|]. split; reflexivity. }
  repeat split; try reflexivity; try discriminate.
  intros s.
  change (row_score [2; 2; 2; 2] s) with (int_add (int_add s 4) 4).
  unfold int_add. rewrite wrap_add_l. f_equal. lia.
Qed.

Lemma left_rows_witness :
  wf_board (tiles example_game) = true
  /\ exists c g',
       left example_game = Some (c, g')
       /\ tiles g' = map push_row (tiles example_game)
       /\ score g' = board_score (tiles example_game) (score example_game).
Proof.
  split; [reflexivity|]. apply (left_rows example_game). reflexivity.
Defined.

(** C2, as the code has it.  On a board whose tile values can be doubled
    without overflow, the second of two pushes in the same direction,
    with nothing in between, returns true exactly when the board the
    first push left has two equal non-zero tiles next to each other
    along the push axis; otherwise it returns false. *)
Theorem second_push_merges_only d g :
  wf_board (tiles g) = true ->
  forallb (forallb doubles) (tiles g) = true ->
  exists c1 g1 c2 g2,
    push d g = Some (c1, g1)
    /\ push d g1 = Some (c2, g2)
    /\ c2 = existsb adjacent_equal (view d (tiles g1)).
Proof. apply second_push_spec. Qed.

Lemma second_push_merges_only_witness :
  wf_board (tiles example_game) = true
  /\ forallb (forallb doubles) (tiles example_game) = true
  /\ exists c1 g1 c2 g2,
       push Down example_game = Some (c1, g1)
       /\ push Down g1 = Some (c2, g2)
       /\ c2 = existsb adjacent_equal (view Down (tiles g1)).
Proof.
  split; [reflexivity|]. split; [reflexivity|].
  apply (second_push_merges_only Down example_game); reflexivity.
Defined.

(** C2, as the claim has it, fails: after [left()] has turned the row
    [2,2,2,2] into [4,4,0,0], a second [left()] merges the two fours and
    returns true. *)
Lemma second_push_counterexample :
  left example_game
  = Some (true,
          mkGame 0 0 [[4; 0; 0; 0]; [8; 4; 0; 0]; [4; 4; 0; 0]; [2; 8; 2; 0]]
                 28 (mkStack [] [] 0 0))
  /\ left (mkGame 0 0
             [[4; 0; 0; 0]; [8; 4; 0; 0]; [4; 4; 0; 0]; [2; 8; 2; 0]]
             28 (mkStack [] [] 0 0))
     = Some (true,
             mkGame 0 0
               [[4; 0; 0; 0]; [8; 4; 0; 0]; [8; 0; 0; 0]; [2; 8; 2; 0]]
               36 (mkStack [] [] 0 0)).
Proof. split; reflexivity. Qed.

(** C3. Each push returns false exactly when the board after the call
    is the board before it, cell for cell, and then the score is
    unchanged as well. *)
Theorem push_changed_iff d g :
  wf_board (tiles g) = true ->
  exists c g',
    push d g = Some (c, g')
    /\ (c = false <-> tiles g' = tiles g)
    /\ (c = false -> score g' = score g).
Proof. apply push_changed_spec. Qed.

Lemma push_changed_iff_witness :
  wf_board (tiles example_game) = true
  /\ exists c g',
       push Up example_game = Some (c, g')
       /\ (c = false <-> tiles g' = tiles example_game)
       /\ (c = false -> score g' = score example_game).
Proof.
  split; [reflexivity|]. apply (push_changed_iff Up example_game).
  reflexivity.
Defined.

(** C4. [right()] is [left()] between two mirrorings of the rows,
    [up()] is [left()] between two transpositions and [down()] is
    [right()] between two transpositions: same board, same score, same
    returned flag. *)
Theorem push_symmetry g :
  wf_board (tiles g) = true ->
  right g = conjugate mirror left g
  /\ up g = conjugate transpose left g
  /\ down g = conjugate transpose right g.
Proof. apply push_conjugates. Qed.

Lemma push_symmetry_witness :
  wf_board (tiles example_game) = true
  /\ right example_game = conjugate mirror left example_game
  /\ up example_game = conjugate transpose left example_game
  /\ down example_game = conjugate transpose right example_game.
Proof.
  split; [reflexivity|]. apply (push_symmetry example_game). reflexivity.
Defined.

(** C5, as the code has it.  [save_game()] writes the whole of [g], 356
    bytes: position, board, score and the undo stack with all its
    snapshots; a [load_game()] of that file succeeds and replaces the
    live history stack by the saved one. *)
Theorem load_restores_saved_history d saved live :
  valid_game saved = true ->
  fopen_ok d = true -> fwrite_ok d = true ->
  exists d' g',
    save_game d saved = (true, d')
    /\ savefile d' = Some (game_bytes saved)
    /\ length (game_bytes saved) = sizeof_game
    /\ load_game d' live = Some (true, g')
    /\ undo g' = undo saved.
Proof.
  intros Hv Ho Hw.
  destruct (save_load_spec d saved Hv Ho Hw) as (d' & Hs & Hf & Hl & Hload).
  exists d', saved. auto.
Qed.

Lemma load_restores_saved_history_witness :
  valid_game saved_game = true
  /\ fopen_ok good_disk = true /\ fwrite_ok good_disk = true
  /\ exists d' g',
       save_game good_disk saved_game = (true, d')
       /\ savefile d' = Some (game_bytes saved_game)
       /\ length (game_bytes saved_game) = sizeof_game
       /\ load_game d' live_game = Some (true, g')
       /\ undo g' = undo saved_game.
Proof.
  split; [reflexivity|]. split; [reflexivity|]. split; [reflexivity|].
  apply (load_restores_saved_history good_disk saved_game live_game);
    reflexivity.
Defined.

(** C5, as the claim has it, fails: loading a file saved from another
    game succeeds and leaves the live game with the history that was in
    the file, not with its own. *)
Lemma load_replaces_history :
  exists g',
    load_game (snd (save_game good_disk saved_game)) live_game
    = Some (true, g')
    /\ undo g' = undo saved_game
    /\ undo g' <> undo live_game.
Proof.
  exists saved_game. split; [vm_compute; reflexivity|].
  split; [reflexivity|discriminate].
Qed.

(** C6. The undo stack has room for [UNDO_CAPACITY] = 4 snapshots.
    [push_undo] always succeeds and puts the live tiles and score on
    top, dropping the oldest snapshot when the stack is full, so that
    after five or more pushes the stack holds the four most recent
    ones.  With one snapshot on the stack [pop_undo] returns false and
    changes nothing; with two it succeeds once, making the snapshot
    pushed just before the top one the live tiles and score, and a
    second call in a row fails. *)
Theorem undo_stack_bounded g l :
  wf_stack (undo g) = true ->
  (exists g',
     push_undo g = Some (tt, g')
     /\ wf_stack (undo g') = true
     /\ stack_entries (undo g')
        = take (Z.to_nat UNDO_CAPACITY)
               ((tiles g, score g) :: stack_entries (undo g)))
  /\ ((Z.to_nat UNDO_CAPACITY + 1 <= length l)%nat ->
      exists g',
        pushes l g = Some g'
        /\ undo_size (undo g') = UNDO_CAPACITY
        /\ stack_entries (undo g') = take (Z.to_nat UNDO_CAPACITY) (rev l))
  /\ (undo_size (undo g) = 1 -> pop_undo g = Some (false, g))
  /\ (undo_size (undo g) = 2 ->
      exists e_top e_prev g1,
        stack_entries (undo g) = [e_top; e_prev]
        /\ pop_undo g = Some (true, g1)
        /\ tiles g1 = fst e_prev /\ score g1 = snd e_prev
        /\ stack_entries (undo g1) = [e_prev]
        /\ pop_undo g1 = Some (false, g1)).
Proof. apply undo_stack_spec. Qed.

Lemma undo_stack_bounded_witness :
  wf_stack (undo live_game) = true
  /\ (exists g',
        pushes five_snapshots live_game = Some g'
        /\ undo_size (undo g') = UNDO_CAPACITY
        /\ stack_entries (undo g')
           = take (Z.to_nat UNDO_CAPACITY) (rev five_snapshots))
  /\ (exists e_top e_prev g1,
        stack_entries (undo live_game) = [e_top; e_prev]
        /\ pop_undo live_game = Some (true, g1)
        /\ tiles g1 = fst e_prev /\ score g1 = snd e_prev
        /\ stack_entries (undo g1) = [e_prev]
        /\ pop_undo g1 = Some (false, g1)).
Proof.
  split; [reflexivity|].
  destruct (undo_stack_bounded live_game five_snapshots)
    as (_ & Hpushes & _ & Hpop); [reflexivity|].
  split; [apply Hpushes; vm_compute; lia|apply Hpop; reflexivity].
Defined.

(** C7. For a game that fits the structure, and a file system that lets
    the file be opened and written, [save_game()] succeeds and a
    [load_game()] after it succeeds and leaves exactly the saved game
    as the live one. *)
Theorem save_load_roundtrip d g :
  valid_game g = true ->
  fopen_ok d = true -> fwrite_ok d = true ->
  exists d',
    save_game d g = (true, d')
    /\ forall live, load_game d' live = Some (true, g).
Proof.
  intros Hv Ho Hw.
  destruct (save_load_spec d g Hv Ho Hw) as (d' & Hs & _ & _ & Hload).
  exists d'. auto.
Qed.

Lemma save_load_roundtrip_witness :
  valid_game saved_game = true
  /\ fopen_ok good_disk = true /\ fwrite_ok good_disk = true
  /\ exists d',
       save_game good_disk saved_game = (true, d')
       /\ forall live, load_game d' live = Some (true, saved_game).
Proof.
  split; [reflexivity|]. split; [reflexivity|]. split; [reflexivity|].
  apply (save_load_roundtrip good_disk saved_game); reflexivity.
Defined.

(** C8. When the save file cannot be opened, or holds fewer bytes than
    one record, [load_game()] returns false and the live game, history
    included, is what it was. *)
Theorem load_failure_keeps_state d g :
  fopen_ok d = false \/ savefile d = None
  \/ (exists bs, savefile d = Some bs /\ (length bs < sizeof_game)%nat) ->
  load_game d g = Some (false, g).
Proof. apply load_failure. Qed.

Lemma load_failure_keeps_state_witness :
  (fopen_ok short_disk = false \/ savefile short_disk = None
   \/ (exists bs, savefile short_disk = Some bs
                  /\ (length bs < sizeof_game)%nat))
  /\ load_game short_disk live_game = Some (false, live_game).
Proof.
  assert (H : fopen_ok short_disk = false \/ savefile short_disk = None
              \/ (exists bs, savefile short_disk = Some bs
                             /\ (length bs < sizeof_game)%nat)).
  { right. right. eexists. split; [reflexivity|]. vm_compute. lia. }
  split; [exact H|].
  apply (load_failure_keeps_state short_disk live_game H).
Defined.

(** C9. [move_available()] leaves the game as it is; it returns false
    exactly when no cell is empty and no two cells next to each other in
    a row or in a column hold the same non-zero value, and so it returns
    true whenever some cell is empty. *)
Theorem move_available_iff g :
  wf_board (tiles g) = true ->
  exists r,
    move_available g = Some (r, g)
    /\ (r = false <-> ~ has_empty (tiles g) /\ ~ has_pair (tiles g))
    /\ (has_empty (tiles g) -> r = true).
Proof. apply move_available_correct. Qed.

Lemma move_available_iff_witness :
  wf_board (tiles live_game) = true
  /\ exists r,
       move_available live_game = Some (r, live_game)
       /\ (r = false <->
           ~ has_empty (tiles live_game) /\ ~ has_pair (tiles live_game))
       /\ (has_empty (tiles live_game) -> r = true).
Proof.
  split; [reflexivity|]. apply (move_available_iff live_game). reflexivity.
Defined.

(** C10. On a board with an empty cell, [new_tile()] writes one cell,
    which was empty, and nothing else: every other cell keeps its value
    and the board has one tile more.  The value written is 2 or 4; with
    [random_tiles] false it is 2 and the cell is the first empty one in
    row-major order.  With [random_tiles] true this holds whatever the
    two draws in [0, 1) are. *)
Theorem new_tile_places_one random_tiles draw1 draw2 g :
  wf_board (tiles g) = true ->
  has_empty (tiles g) ->
  (0 <= draw1)%Q -> (draw1 < 1)%Q ->
  exists i j v g',
    new_tile random_tiles draw1 draw2 g = Some (tt, g')
    /\ cell (tiles g) i j = Some 0
    /\ set_cell (tiles g) i j v = Some (tiles g')
    /\ (v = 2 \/ v = 4)
    /\ (forall i' j', (i', j') <> (i, j) ->
        cell (tiles g') i' j' = cell (tiles g) i' j')
    /\ count_tiles (tiles g') = count_tiles (tiles g) + 1
    /\ score g' = score g /\ undo g' = undo g
    /\ (random_tiles = false ->
        v = 2
        /\ forall i' j', before (i', j') (i, j) ->
                         cell (tiles g) i' j' <> Some 0).
Proof. apply new_tile_correct. Qed.

Lemma new_tile_places_one_witness :
  wf_board (tiles example_game) = true
  /\ has_empty (tiles example_game)
  /\ (0 <= 15 # 16)%Q /\ (15 # 16 < 1)%Q
  /\ exists i j v g',
       new_tile true (15 # 16) (19 # 20) example_game = Some (tt, g')
       /\ cell (tiles example_game) i j = Some 0
       /\ set_cell (tiles example_game) i j v = Some (tiles g')
       /\ (v = 2 \/ v = 4)
       /\ (forall i' j', (i', j') <> (i, j) ->
           cell (tiles g') i' j' = cell (tiles example_game) i' j')
       /\ count_tiles (tiles g') = count_tiles (tiles example_game) + 1
       /\ score g' = score example_game /\ undo g' = undo example_game
       /\ (true = false ->
           v = 2
           /\ forall i' j', before (i', j') (i, j) ->
                            cell (tiles example_game) i' j' <> Some 0).
Proof.
  assert (He : has_empty (tiles example_game))
    by (exists 0, 0; reflexivity).
  assert (H0 : (0 <= 15 # 16)%Q) by (unfold Qle; simpl; lia).
  assert (H1 : (15 # 16 < 1)%Q) by reflexivity.
  split; [reflexivity|]. split; [exact He|].
  split; [exact H0|]. split; [exact H1|].
  apply (new_tile_places_one true (15 # 16) (19 # 20) example_game);
    [reflexivity|exact He|exact H0|exact H1].
Defined.

(** * Further properties of the code *)

(** X1. A push is what the game says it is: in every line, seen from
    the edge pushed to, the gaps go, equal neighbours merge once from
    that edge on, and the line is filled up with empty cells; the score
    grows by the values the merges made; the corner of the board and
    the undo stack are not touched. *)
Theorem push_slides_and_merges d g :
  wf_board (tiles g) = true ->
  exists c,
    push d g
    = Some (c, mkGame (x g) (y g) (pushed_board d (tiles g))
                      (fold_left int_add (board_gains d (tiles g)) (score g))
                      (undo g)).
Proof. apply push_functional_spec. Qed.

Lemma push_slides_and_merges_witness :
  wf_board (tiles play_game) = true
  /\ exists c,
       push Down play_game
       = Some (c, mkGame (x play_game) (y play_game)
                         (pushed_board Down (tiles play_game))
                         (fold_left int_add
                            (board_gains Down (tiles play_game))
                            (score play_game))
                         (undo play_game)).
Proof.
  split; [reflexivity|].
  apply (push_slides_and_merges Down play_game). reflexivity.
Defined.

(** X2. A push neither makes nor loses tile value: when no tile is so
    large that doubling it overflows, the sum of the tiles after the
    push is the sum before it. *)
Theorem push_keeps_sum d g :
  wf_board (tiles g) = true ->
  forallb (forallb doubles) (tiles g) = true ->
  exists c g1,
    push d g = Some (c, g1)
    /\ sum_tiles (tiles g1) = sum_tiles (tiles g).
Proof.
  intros H Hd. destruct (push_functional_spec d g H) as (c & Hp).
  do 2 eexists. split; [exact Hp|].
  cbn [tiles]. now apply pushed_board_sum.
Qed.

Lemma push_keeps_sum_witness :
  wf_board (tiles play_game) = true
  /\ forallb (forallb doubles) (tiles play_game) = true
  /\ exists c g1,
       push Up play_game = Some (c, g1)
       /\ sum_tiles (tiles g1) = sum_tiles (tiles play_game).
Proof.
  split; [reflexivity|]. split; [reflexivity|].
  apply (push_keeps_sum Up play_game); reflexivity.
Defined.

(** X3. A push keeps the board 4 by 4, and every merge takes one tile
    off it: the tiles after the push and the merges made add up to the
    tiles before it (no tile being so large that doubling it
    overflows). *)
Theorem push_merges_count d g :
  wf_board (tiles g) = true ->
  forallb (forallb doubles) (tiles g) = true ->
  exists c g1,
    push d g = Some (c, g1)
    /\ wf_board (tiles g1) = true
    /\ count_tiles (tiles g1) + Z.of_nat (length (board_gains d (tiles g)))
       = count_tiles (tiles g).
Proof.
  intros H Hd. destruct (push_functional_spec d g H) as (c & Hp).
  do 2 eexists. split; [exact Hp|]. cbn [tiles].
  split; [now apply wf_pushed_board|now apply pushed_board_count].
Qed.

Lemma push_merges_count_witness :
  wf_board (tiles play_game) = true
  /\ forallb (forallb doubles) (tiles play_game) = true
  /\ exists c g1,
       push Left play_game = Some (c, g1)
       /\ wf_board (tiles g1) = true
       /\ count_tiles (tiles g1)
            + Z.of_nat (length (board_gains Left (tiles play_game)))
          = count_tiles (tiles play_game).
Proof.
  split; [reflexivity|]. split; [reflexivity|].
  apply (push_merges_count Left play_game); reflexivity.
Defined.

(** X4. Powers of two stay powers of two: on a board whose cells are
    empty or hold one of 2^1 .. 2^n, with n at most 29, the cells after
    a push are empty or hold one of 2^1 .. 2^(n+1). *)
Theorem push_keeps_powers n d g :
  (n <= 29)%nat ->
  wf_board (tiles g) = true ->
  forallb (forallb (power_tile n)) (tiles g) = true ->
  exists c g1,
    push d g = Some (c, g1)
    /\ forallb (forallb (power_tile (S n))) (tiles g1) = true.
Proof.
  intros Hn H Hp. destruct (push_functional_spec d g H) as (c & Hpush).
  do 2 eexists. split; [exact Hpush|].
  cbn [tiles]. now apply pushed_board_power.
Qed.

Lemma push_keeps_powers_witness :
  (2 <= 29)%nat
  /\ wf_board (tiles play_game) = true
  /\ forallb (forallb (power_tile 2)) (tiles play_game) = true
  /\ exists c g1,
       push Right play_game = Some (c, g1)
       /\ forallb (forallb (power_tile 3)) (tiles g1) = true.
Proof.
  assert (H : (2 <= 29)%nat) by lia.
  split; [exact H|]. split; [reflexivity|]. split; [reflexivity|].
  apply (push_keeps_powers 2 Right play_game H); reflexivity.
Defined.

(** X5. After a push no gap is left: in every line, seen from the edge
    pushed to, no empty cell comes before a tile (no tile being so
    large that doubling it overflows). *)
Theorem push_packs_lines d g :
  wf_board (tiles g) = true ->
  forallb (forallb doubles) (tiles g) = true ->
  exists c g1,
    push d g = Some (c, g1)
    /\ forallb compact (view d (tiles g1)) = true.
Proof.
  intros H Hd. destruct (push_functional_spec d g H) as (c & Hp).
  do 2 eexists. split; [exact Hp|].
  cbn [tiles]. now apply pushed_board_compact.
Qed.

Lemma push_packs_lines_witness :
  wf_board (tiles play_game) = true
  /\ forallb (forallb doubles) (tiles play_game) = true
  /\ exists c g1,
       push Down play_game = Some (c, g1)
       /\ forallb compact (view Down (tiles g1)) = true.
Proof.
  split; [reflexivity|]. split; [reflexivity|].
  apply (push_packs_lines Down play_game); reflexivity.
Defined.

(** X6. A push that returns true leaves an empty cell, so the
    [new_tile] that [main] calls after it always has a place for its
    tile. *)
Theorem moved_board_has_room d g :
  wf_board (tiles g) = true ->
  exists c g1,
    push d g = Some (c, g1)
    /\ (c = true -> has_empty (tiles g1)).
Proof.
  intros H. destruct (push_total d g H) as (c & g1 & Hp).
  exists c, g1. split; [exact Hp|].
  intros ->. now apply (moved_has_empty d g g1).
Qed.

Lemma moved_board_has_room_witness :
  wf_board (tiles play_game) = true
  /\ exists c g1,
       push Left play_game = Some (c, g1)
       /\ (c = true -> has_empty (tiles g1)).
Proof.
  split; [reflexivity|].
  apply (moved_board_has_room Left play_game). reflexivity.
Defined.

(** X7. On a board without an empty cell [new_tile] changes nothing,
    in either mode and whatever the draws. *)
Theorem new_tile_on_full_board random_tiles draw1 draw2 g :
  wf_board (tiles g) = true ->
  ~ has_empty (tiles g) ->
  new_tile random_tiles draw1 draw2 g = Some (tt, g).
Proof. apply new_tile_full. Qed.

Lemma new_tile_on_full_board_witness :
  wf_board (tiles live_game) = true
  /\ ~ has_empty (tiles live_game)
  /\ new_tile true (1 # 2) (1 # 2) live_game = Some (tt, live_game).
Proof.
  assert (H : ~ has_empty (tiles live_game)).
  { intros (i & j & E).
    assert (Hc := cell_in_board _ _ _ _ E).
    destruct Hc as [Hi Hj]. cbn [fst snd] in Hi, Hj.
    apply in_bounds_4 in Hi, Hj.
    destruct Hi as [-> | [-> | [-> | ->]]];
    destruct Hj as [-> | [-> | [-> | ->]]]; discriminate E. }
  split; [reflexivity|]. split; [exact H|].
  apply (new_tile_on_full_board true (1 # 2) (1 # 2) live_game);
    [reflexivity|exact H].
Defined.

(** X8. The end-of-game test agrees with the pushes.  When
    [move_available] returns false, each of the four pushes returns
    false and leaves the game as it is; and on a board with at least
    one tile, when all four pushes return false, [move_available]
    returns false. *)
Theorem no_move_iff_no_push g :
  wf_board (tiles g) = true ->
  (move_available g = Some (false, g) ->
   forall d, push d g = Some (false, g))
  /\ (has_tile (tiles g) ->
      (forall d, exists g', push d g = Some (false, g')) ->
      move_available g = Some (false, g)).
Proof. apply stuck_spec. Qed.

Lemma no_move_iff_no_push_witness :
  wf_board (tiles live_game) = true
  /\ forall d, push d live_game = Some (false, live_game).
Proof.
  split; [reflexivity|].
  apply (no_move_iff_no_push live_game); reflexivity.
Defined.

(** X9. [new_game] starts a game from any state: afterwards the board
    holds one tile, a 2 or a 4 (a 2 in the top-left cell when tiles
    spawn deterministically), the score is 0, the undo stack holds
    this position and nothing else, and an undo is refused. *)
Theorem new_game_starts random_tiles draw1 draw2 w g :
  length (undo_tiles (undo g)) = Z.to_nat UNDO_CAPACITY ->
  length (undo_score (undo g)) = Z.to_nat UNDO_CAPACITY ->
  (0 <= draw1)%Q -> (draw1 < 1)%Q ->
  exists i j v g',
    new_game random_tiles draw1 draw2 w g = Some (tt, g')
    /\ set_cell blank_tiles i j v = Some (tiles g')
    /\ (v = 2 \/ v = 4)
    /\ (random_tiles = false -> i = 0 /\ j = 0 /\ v = 2)
    /\ count_tiles (tiles g') = 1
    /\ score g' = 0
    /\ stack_entries (undo g') = [(tiles g', 0)]
    /\ in_play g'
    /\ pop_undo g' = Some (false, g').
Proof. apply new_game_spec. Qed.

Lemma new_game_starts_witness :
  length (undo_tiles (undo saved_game)) = Z.to_nat UNDO_CAPACITY
  /\ length (undo_score (undo saved_game)) = Z.to_nat UNDO_CAPACITY
  /\ (0 <= 1 # 2)%Q /\ (1 # 2 < 1)%Q
  /\ exists i j v g',
       new_game false (1 # 2) (1 # 2) some_window saved_game = Some (tt, g')
       /\ set_cell blank_tiles i j v = Some (tiles g')
       /\ (v = 2 \/ v = 4)
       /\ (false = false -> i = 0 /\ j = 0 /\ v = 2)
       /\ count_tiles (tiles g') = 1
       /\ score g' = 0
       /\ stack_entries (undo g') = [(tiles g', 0)]
       /\ in_play g'
       /\ pop_undo g' = Some (false, g').
Proof.
  assert (H0 : (0 <= 1 # 2)%Q) by (unfold Qle; simpl; lia).
  assert (H1 : (1 # 2 < 1)%Q) by reflexivity.
  split; [reflexivity|]. split; [reflexivity|].
  split; [exact H0|]. split; [exact H1|].
  apply (new_game_starts false (1 # 2) (1 # 2) some_window saved_game);
    [reflexivity|reflexivity|exact H0|exact H1].
Defined.



(** X11. No more than three undos in a row: on an undo stack in range,
    after three calls of [pop_undo] that succeeded the fourth returns
    false and changes nothing; and when the stack is full, three calls
    do succeed. *)
Theorem three_undos_at_most g :
  wf_stack (undo g) = true ->
  (forall g1 g2 g3,
     pop_undo g = Some (true, g1) ->
     pop_undo g1 = Some (true, g2) ->
     pop_undo g2 = Some (true, g3) ->
     pop_undo g3 = Some (false, g3))
  /\ (undo_size (undo g) = UNDO_CAPACITY ->
      exists g1 g2 g3,
        pop_undo g = Some (true, g1)
        /\ pop_undo g1 = Some (true, g2)
        /\ pop_undo g2 = Some (true, g3)
        /\ pop_undo g3 = Some (false, g3)).
Proof.
  intros H. split.
  - intros g1 g2 g3. now apply three_undos.
  - now apply full_stack_undos.
Qed.

Lemma three_undos_at_most_witness :
  wf_stack (undo saved_game) = true
  /\ forall g1 g2 g3,
       pop_undo saved_game = Some (true, g1) ->
       pop_undo g1 = Some (true, g2) ->
       pop_undo g2 = Some (true, g3) ->
       pop_undo g3 = Some (false, g3).
Proof.
  split; [reflexivity|].
  apply (three_undos_at_most saved_game). reflexivity.
Defined.





(** X14. [load_game] reads one record and no more: a save file that
    starts with the record of a game is loaded as that game, whatever
    bytes follow the record. *)
Theorem load_reads_one_record d g extra live :
  valid_game g = true ->
  fopen_ok d = true ->
  savefile d = Some (game_bytes g ++ extra) ->
  load_game d live = Some (true, g).
Proof. apply load_ignores_tail. Qed.

Lemma load_reads_one_record_witness :
  load_game (mkDisk (Some (game_bytes saved_game ++ game_bytes live_game))
                    true true) live_game
  = Some (true, saved_game).
Proof.
  apply (load_reads_one_record
           (mkDisk (Some (game_bytes saved_game ++ game_bytes live_game))
                   true true)
           saved_game (game_bytes live_game) live_game); reflexivity.
Defined.

(** X15. The colour of a tile is its binary logarithm: for a positive
    tile the loop of [draw_tiles] ends within 31 rounds with the
    number of the colour pair equal to log2 of the tile, so that the
    tile 2^k is drawn in pair k. *)
Theorem colour_is_log2 fuel tile_num :
  0 < tile_num < 2147483648 -> (31 <= fuel)%nat ->
  colour_of fuel tile_num = Some (Z.log2 tile_num).
Proof. apply colour_of_log2. Qed.

Lemma colour_is_log2_witness :
  0 < 2048 < 2147483648 /\ (31 <= 31)%nat
  /\ colour_of 31 2048 = Some (Z.log2 2048).
Proof.
  assert (H : 0 < 2048 < 2147483648) by lia.
  assert (Hf : (31 <= 31)%nat) by lia.
  split; [exact H|]. split; [exact Hf|].
  apply (colour_is_log2 31 2048 H Hf).
Defined.




